(** * Traffic-Density-Analyzer: the tracking and density engine of
      [app/utils.py], embedded shallowly and verified.

    Conventions of the embedding.
    - Python [int] is [Z].  The detector reports a box with real-valued
      corner coordinates; the source converts them with
      [map(int, box.xyxy[0])] (truncation toward zero) before it uses the
      box, so the boxes of the buckets and of the tracks have integer
      coordinates.
    - Python [float] (confidences, IoU values, thresholds, percentages) is
      modelled by the exact rationals [Q]; rounding is not modelled.  On
      integer boxes the IoU is a quotient of two integers.
    - The dictionaries [tracks], [next_track_id], [unique_counts] and
      [detections_by_class] all have the four fixed keys of
      [vehicle_colors]; they are total functions on the enumeration
      [vclass], iterated in the insertion order of [vehicle_colors].
    - A track is a Python dict mutated in place inside its class list; the
      list itself is only rebuilt (ageing) or appended to (creation), so the
      greedy loop is a left-to-right pass that threads [used_det] and the
      class's unique count.
    - The video is the list of frames that [cap.read()] delivers; a frame is
      the list [results[0].boxes] the detector returns for it (ultralytics
      returns one result per input image, so the guard
      [results and len(results) > 0] holds for every frame).  Drawing and
      the per-frame lane overlay write to no variable that the result reads
      and are left out. *)

From Stdlib Require Import ZArith QArith Qminmax Qround Lia Ascii String.
From stdpp Require Import base gmap functions sorting list.

Set Default Proof Using "Type".
Local Open Scope Z_scope.

(** ** Geometry utility *)

Module Geometry.

Definition box : Type := (Z * Z * Z * Z)%type.

(** Lines 13-19 of [_compute_iou]. *)
Definition inter_area (box_a box_b : box) : Z :=
  let '(ax1, ay1, ax2, ay2) := box_a in
  let '(bx1, by1, bx2, by2) := box_b in
  let inter_x1 := Z.max ax1 bx1 in
  let inter_y1 := Z.max ay1 by1 in
  let inter_x2 := Z.min ax2 bx2 in
  let inter_y2 := Z.min ay2 by2 in
  let inter_w := Z.max 0 (inter_x2 - inter_x1) in
  let inter_h := Z.max 0 (inter_y2 - inter_y1) in
  inter_w * inter_h.

(** Lines 20-21: [max(0, x2 - x1) * max(0, y2 - y1)]. *)
Definition area (b : box) : Z :=
  let '(x1, y1, x2, y2) := b in
  Z.max 0 (x2 - x1) * Z.max 0 (y2 - y1).

(** Line 22. *)
Definition union_area (box_a box_b : box) : Z :=
  area box_a + area box_b - inter_area box_a box_b.

(** Line 23: [(inter_area / union) if union > 0 else 0.0]. *)
Definition _compute_iou (box_a box_b : box) : Q :=
  if 0 <? union_area box_a box_b
  then (inject_Z (inter_area box_a box_b) / inject_Z (union_area box_a box_b))%Q
  else 0%Q.

Definition non_degenerate (b : box) : Prop :=
  let '(x1, y1, x2, y2) := b in x1 < x2 ∧ y1 < y2.

(** Two boxes do not overlap when one lies entirely to one side of the
    other (touching edges included). *)
Definition disjoint_boxes (box_a box_b : box) : Prop :=
  let '(ax1, ay1, ax2, ay2) := box_a in
  let '(bx1, by1, bx2, by2) := box_b in
  ax2 <= bx1 ∨ bx2 <= ax1 ∨ ay2 <= by1 ∨ by2 <= ay1.

End Geometry.

Import Geometry.

(** ** Data model *)

(** The keys of [vehicle_colors], in insertion order. *)
Inductive vclass : Set := car | truck | bus | motorcycle.

Global Instance vclass_eq_dec : EqDecision vclass.
Proof. solve_decision. Defined.

Definition vehicle_types : list vclass := [car; truck; bus; motorcycle].

(** [class_map]: COCO class id to vehicle type. *)
Definition class_map (cls : Z) : option vclass :=
  if cls =? 2 then Some car
  else if cls =? 3 then Some motorcycle
  else if cls =? 5 then Some bus
  else if cls =? 7 then Some truck
  else None.

(** One element of [results[0].boxes]: the corner coordinates
    [box.xyxy[0]] as the detector reports them, the class id
    [int(box.cls[0])] and the confidence [float(box.conf[0])]. *)
Record raw_detection : Type := {
  xyxy : Q * Q * Q * Q;
  cls : Z;
  conf : Q
}.

(** An entry [((x1, y1, x2, y2), conf)] of a [detections_by_class] list. *)
Abbreviation detection := (box * Q)%type (only parsing).

(** A track dict.  The field [id] is the dict's ['id'] key; from here on
    [id] names this projection, so [map id ts] is the list of the ids of
    [ts]. *)
Record track : Type := {
  id : Z;
  bbox : box;
  last_seen : Z;
  hits : Z;
  counted : bool
}.

Global Instance track_eq_dec : EqDecision track.
Proof. solve_decision. Defined.

Record state : Type := {
  tracks : vclass → list track;
  next_track_id : vclass → Z;
  unique_counts : vclass → Z;
  max_total_concurrent : Z;
  density_series : list Q;
  accepted_conf_sum : Q;
  accepted_conf_count : Z;
  frame_count : Z;
  frame_idx : Z
}.

(** What [process_video] reads from the capture: whether it opened, its
    properties, and the detector output of every frame it delivers. *)
Record video : Type := {
  cap_opened : bool;
  fps : Z;
  width : Z;
  height : Z;
  frames : list (list raw_detection)
}.

Inductive error : Set :=
| IOError (msg : string)
| ValueError (msg : string).

(** The dictionary returned by [process_video]. *)
Record results : Type := {
  total_vehicles : Z;
  density : Q;
  vehicle_counts : vclass → Z;
  r_density_series : list Q;
  avg_confidence : Q;
  low_confidence : bool
}.

Definition MAX_VEHICLES_PER_LANE : Z := 15.
Definition NUM_LANES : Z := 3.
Definition TRACK_TIMEOUT : Z := 30.
Definition CONFIRM_HITS : Z := 3.

(** [x < y] on floats. *)
Definition Qltb (x y : Q) : bool := negb (Qle_bool y x).

(** Python's [int] on a float: truncation toward zero. *)
Definition int_of_float (q : Q) : Z :=
  if Qle_bool 0 q then Qfloor q else Qceiling q.

(** Line 135: [x1, y1, x2, y2 = map(int, box.xyxy[0])]. *)
Definition int_box (xyxy : Q * Q * Q * Q) : box :=
  let '(x1, y1, x2, y2) := xyxy in
  (int_of_float x1, int_of_float y1, int_of_float x2, int_of_float y2).

(** ** The engine *)

Section Engine.

(** Keyword arguments of [process_video] (defaults 0.6, 0.75, 0.3). *)
Variables (conf_global motorcycle_conf iou_thresh : Q).

(** *** Detection filter (lines 133-156) *)

Definition conf_threshold (vehicle_type : vclass) : Q :=
  if decide (vehicle_type = motorcycle) then motorcycle_conf else conf_global.

(** Line 152: [max(1, (x2 - x1) * (y2 - y1))]. *)
Definition box_area (b : box) : Z :=
  let '(x1, y1, x2, y2) := b in Z.max 1 ((x2 - x1) * (y2 - y1)).

(** The body of the loop over [boxes] (lines 135-156): [None] when the
    detection is skipped, otherwise the bucket it is appended to and the
    appended entry. *)
Definition accept (frame_area : Z) (d : raw_detection)
  : option (vclass * detection) :=
  let dbox := int_box (xyxy d) in
  match class_map (cls d) with
  | None => None
  | Some vehicle_type =>
      if Qltb (conf d) (conf_threshold vehicle_type) then None
      else if bool_decide (vehicle_type = motorcycle)
              && Qltb ((5 # 100) * inject_Z frame_area)
                      (inject_Z (box_area dbox))
      then None
      else Some (vehicle_type, (dbox, conf d))
  end.

(** [detections_by_class[vtype]] after the loop: the accepted entries of
    that type, in the order of [boxes]. *)
Fixpoint detections_by_class (frame_area : Z) (boxes : list raw_detection)
    (vtype : vclass) : list detection :=
  match boxes with
  | [] => []
  | d :: boxes' =>
      match accept frame_area d with
      | Some (vehicle_type, det) =>
          if decide (vehicle_type = vtype)
          then det :: detections_by_class frame_area boxes' vtype
          else detections_by_class frame_area boxes' vtype
      | None => detections_by_class frame_area boxes' vtype
      end
  end.

(** *** Track store and greedy matcher (lines 159-200) *)

(** Lines 161-165. *)
Definition age_out (frame_idx : Z) (ts : list track) : list track :=
  filter (λ t, frame_idx - last_seen t <= TRACK_TIMEOUT) ts.

(** Lines 170-178, the scan of [enumerate(dets)] from position [j] on.
    [best_j] is [None] for the source's [-1]. *)
Fixpoint best_match (tbox : box) (dets : list detection) (j : nat)
    (used_det : gset nat) (best_j : option nat) (best_iou : Q)
  : option nat * Q :=
  match dets with
  | [] => (best_j, best_iou)
  | (dbox, dconf) :: dets' =>
      if decide (j ∈ used_det)
      then best_match tbox dets' (S j) used_det best_j best_iou
      else
        let iou := _compute_iou tbox dbox in
        if Qltb best_iou iou
        then best_match tbox dets' (S j) used_det (Some j) iou
        else best_match tbox dets' (S j) used_det best_j best_iou
  end.

(** Lines 181-186: the in-place update of a matched track and of its
    class's unique count. *)
Definition hit (frame_idx : Z) (dbox : box) (t : track) (uc : Z)
  : track * Z :=
  let t1 := {| id := id t; bbox := dbox; last_seen := frame_idx;
               hits := hits t + 1; counted := counted t |} in
  if negb (counted t1) && (CONFIRM_HITS <=? hits t1)
  then ({| id := id t1; bbox := bbox t1; last_seen := last_seen t1;
           hits := hits t1; counted := true |}, uc + 1)
  else (t1, uc).

(** Line 179: the decision of the loop body for one track, the index
    [best_j] when the track is matched. *)
Definition assigned (dets : list detection) (t : track)
    (used_det : gset nat) : option nat :=
  let '(best_j, best_iou) := best_match (bbox t) dets 0 used_det None 0%Q in
  match best_j with
  | Some j => if Qle_bool iou_thresh best_iou then Some j else None
  | None => None
  end.

(** Lines 169-187, one iteration.  [dets[best_j]] cannot be out of range
    (lemma [assigned_lookup]); the model leaves the track alone there. *)
Definition match_track (frame_idx : Z) (dets : list detection) (t : track)
    (used_det : gset nat) (uc : Z) : track * gset nat * Z :=
  match assigned dets t used_det with
  | Some best_j =>
      match dets !! best_j with
      | Some (dbox, _) =>
          let '(t', uc') := hit frame_idx dbox t uc in
          (t', {[best_j]} ∪ used_det, uc')
      | None => (t, used_det, uc)
      end
  | None => (t, used_det, uc)
  end.

(** Lines 169-187, the loop over [enumerate(tracks[vtype])]. *)
Fixpoint greedy_match (frame_idx : Z) (dets : list detection)
    (ts : list track) (used_det : gset nat) (uc : Z)
  : list track * gset nat * Z :=
  match ts with
  | [] => ([], used_det, uc)
  | t :: ts' =>
      let '(t', used_det', uc') := match_track frame_idx dets t used_det uc in
      let '(ts'', used_det'', uc'') :=
        greedy_match frame_idx dets ts' used_det' uc' in
      (t' :: ts'', used_det'', uc'')
  end.

(** Lines 190-200, from position [j] of [enumerate(dets)] on. *)
Fixpoint create_tracks (frame_idx : Z) (dets : list detection) (j : nat)
    (used_det : gset nat) (ts : list track) (next_id : Z)
  : list track * Z :=
  match dets with
  | [] => (ts, next_id)
  | (dbox, dconf) :: dets' =>
      if decide (j ∈ used_det)
      then create_tracks frame_idx dets' (S j) used_det ts next_id
      else create_tracks frame_idx dets' (S j) used_det
             (ts ++ [{| id := next_id; bbox := dbox; last_seen := frame_idx;
                        hits := 1; counted := false |}])
             (next_id + 1)
  end.

(** Lines 205-207. *)
Fixpoint add_confidences (dets : list detection) (sum : Q) (count : Z)
  : Q * Z :=
  match dets with
  | [] => (sum, count)
  | (_, dconf) :: dets' => add_confidences dets' (sum + dconf)%Q (count + 1)
  end.

(** Lines 160-200 for one class: ageing, greedy matching, creation.
    Returns the class's new track list, next id and unique count. *)
Definition update_class (frame_idx : Z) (dets : list detection)
    (ts : list track) (next_id uc : Z) : list track * Z * Z :=
  let fresh_tracks := age_out frame_idx ts in
  let m := greedy_match frame_idx dets fresh_tracks ∅ uc in
  let c := create_tracks frame_idx dets 0 m.1.2 m.1.1 next_id in
  (c.1, c.2, m.2).

(** Lines 159-207, one iteration of the loop over
    [detections_by_class.items()]; the second component is
    [total_this_frame]. *)
Definition track_class (dbc : vclass → list detection)
    (acc : state * Z) (vtype : vclass) : state * Z :=
  let st := acc.1 in
  let dets := dbc vtype in
  let u := update_class (frame_idx st) dets (tracks st vtype)
             (next_track_id st vtype) (unique_counts st vtype) in
  let a := add_confidences dets (accepted_conf_sum st) (accepted_conf_count st) in
  ({| tracks := <[vtype := u.1.1]> (tracks st);
      next_track_id := <[vtype := u.1.2]> (next_track_id st);
      unique_counts := <[vtype := u.2]> (unique_counts st);
      max_total_concurrent := max_total_concurrent st;
      density_series := density_series st;
      accepted_conf_sum := a.1;
      accepted_conf_count := a.2;
      frame_count := frame_count st;
      frame_idx := frame_idx st |},
   acc.2 + Z.of_nat (length dets)).

(** Line 240. *)
Definition density_pct (total : Z) : Q :=
  Qmin 100 ((inject_Z total / inject_Z (MAX_VEHICLES_PER_LANE * NUM_LANES))
            * 100)%Q.

(** Lines 109-276, one iteration of the frame loop. *)
Definition process_frame (frame_area sample_every : Z) (st : state)
    (boxes : list raw_detection) : state :=
  let dbc := detections_by_class frame_area boxes in
  let acc := foldl (track_class dbc) (st, 0) vehicle_types in
  let st1 := acc.1 in
  let total_this_frame := acc.2 in
  {| tracks := tracks st1;
     next_track_id := next_track_id st1;
     unique_counts := unique_counts st1;
     max_total_concurrent :=
       if max_total_concurrent st1 <? total_this_frame
       then total_this_frame else max_total_concurrent st1;
     density_series :=
       if frame_idx st1 `mod` sample_every =? 0
       then density_series st1 ++ [density_pct total_this_frame]
       else density_series st1;
     accepted_conf_sum := accepted_conf_sum st1;
     accepted_conf_count := accepted_conf_count st1;
     frame_count := frame_count st1 + 1;
     frame_idx := frame_idx st1 + 1 |}.

(** Lines 87-104. *)
Definition init_state : state :=
  {| tracks := λ _, [];
     next_track_id := λ _, 1;
     unique_counts := λ _, 0;
     max_total_concurrent := 0;
     density_series := [];
     accepted_conf_sum := 0;
     accepted_conf_count := 0;
     frame_count := 0;
     frame_idx := 0 |}.

(** Line 95. *)
Definition sample_every_of (fps : Z) : Z := Z.max 1 (fps `div` 5).

(** The frame loop from a given state. *)
Definition run_from (frame_area sample_every : Z) (st : state)
    (fs : list (list raw_detection)) : state :=
  foldl (process_frame frame_area sample_every) st fs.

(** The state after the frames [fs] of a video. *)
Definition run (v : video) (fs : list (list raw_detection)) : state :=
  run_from (width v * height v) (sample_every_of (fps v)) init_state fs.

(** Lines 286-303. *)
Definition summarize (st : state) : results :=
  let capacity := MAX_VEHICLES_PER_LANE * NUM_LANES in
  let density_percentage :=
    Qmin 100 ((inject_Z (max_total_concurrent st) / inject_Z capacity) * 100)%Q in
  let avg_conf :=
    if accepted_conf_count st =? 0 then 0%Q
    else (accepted_conf_sum st / inject_Z (accepted_conf_count st))%Q in
  {| total_vehicles :=
       0 + unique_counts st car + unique_counts st truck
       + unique_counts st bus + unique_counts st motorcycle;
     density := density_percentage;
     vehicle_counts := unique_counts st;
     r_density_series := density_series st;
     avg_confidence := avg_conf;
     low_confidence := Qltb avg_conf (55 # 100) |}.

(** [process_video]: the capture and the writer must open; the loop runs
    over the frames; an empty run raises.  The [except] clause prints and
    re-raises, so every error reaches the caller.  Loading the detector
    (line 30) and creating the output directory (line 56) are taken to
    succeed; when they raise, the source returns no record either. *)
Definition process_video (v : video) (out_opened : bool) : error + results :=
  if negb (cap_opened v) then inl (IOError "Cannot open video file")
  else if negb out_opened then inl (IOError "Cannot create output video file")
  else
    let st := run v (frames v) in
    if frame_count st =? 0
    then inl (ValueError "No frames were processed from the video")
    else inr (summarize st).

(** *** Output path (lines 52-53) *)

(** [p.endswith(suffix)] on the characters of a path. *)
Definition endswith (p suffix : list ascii) : bool :=
  bool_decide (suffix `suffix_of` p).

(** [p.rsplit('.', 1)]: the parts before and after the last dot, [None]
    when [p] has no dot (the split then has the single part [p]). *)
Fixpoint rsplit_dot (p : list ascii) : option (list ascii * list ascii) :=
  match p with
  | [] => None
  | ch :: p' =>
      match rsplit_dot p' with
      | Some (h, t) => Some (ch :: h, t)
      | None => if decide (ch = "."%char) then Some ([], p') else None
      end
  end.

(** [p.rsplit('.', 1)[0]]. *)
Definition rsplit_head (p : list ascii) : list ascii :=
  match rsplit_dot p with
  | Some (h, _) => h
  | None => p
  end.

Definition dot_mp4 : list ascii := list_ascii_of_string ".mp4".

(** Lines 52-53: the path the writer is opened on. *)
Definition output_file (output_path : list ascii) : list ascii :=
  if endswith output_path dot_mp4 then output_path
  else rsplit_head output_path ++ dot_mp4.

(** *** Lane assigner and lane overlay (lines 69, 114-117, 210-223,
    244-268) *)

(** The keys of [lane_stats], in insertion order. *)
Inductive lane : Set := Left_Lane | Middle_Lane | Right_Lane.

Global Instance lane_eq_dec : EqDecision lane.
Proof. solve_decision. Defined.

Definition lanes : list lane := [Left_Lane; Middle_Lane; Right_Lane].

(** Line 69: [[int(height * y) for y in [0.33, 0.66]]]. *)
Definition lane_heights (height : Z) : Z * Z :=
  (int_of_float (inject_Z height * (33 # 100)),
   int_of_float (inject_Z height * (66 # 100))).

(** Lines 213-221. *)
Definition lane_of (lh : Z * Z) (b : box) : lane :=
  let '(x1, y1, x2, y2) := b in
  let center_y := (y1 + y2) `div` 2 in
  if center_y <? lh.1 then Left_Lane
  else if center_y <? lh.2 then Middle_Lane
  else Right_Lane.

(** The [defaultdict(int)] of one lane: its ['total'] entry and its entries
    by vehicle type. *)
Record lane_counts : Type := {
  lane_total : Z;
  lane_by_type : vclass → Z
}.

(** Lines 115-117. *)
Definition reset_lane_stats : lane → lane_counts :=
  λ _, {| lane_total := 0; lane_by_type := λ _, 0 |}.

(** Lines 222-223. *)
Definition count_in_lane (vtype : vclass) (lane_name : lane)
    (lane_stats : lane → lane_counts) : lane → lane_counts :=
  let stats := lane_stats lane_name in
  <[lane_name :=
      {| lane_total := lane_total stats + 1;
         lane_by_type := <[vtype := lane_by_type stats vtype + 1]>
                           (lane_by_type stats) |}]> lane_stats.

(** Lines 210-223: the loop over [tracks.items()] and over each track
    list. *)
Definition assign_lanes (lh : Z * Z) (tracks : vclass → list track)
  : lane → lane_counts :=
  foldl (λ lane_stats vtype,
           foldl (λ lane_stats t,
                    count_in_lane vtype (lane_of lh (bbox t)) lane_stats)
                 lane_stats (tracks vtype))
        reset_lane_stats vehicle_types.

(** Lines 246-247: the density shown for a lane. *)
Definition lane_density (total : Z) : Q :=
  Qmin ((inject_Z total / inject_Z MAX_VEHICLES_PER_LANE) * 100) 100.

(** Line 258, with [bar_width = 200]. *)
Definition filled_width (density : Q) : Z :=
  int_of_float ((200 * density) / 100).

(** *** File names of uploads ([main.py], lines 128-147, 422-423 and
    674-692)

    File names are strings of ASCII characters, on which [str.lower] only
    maps [A]-[Z] to [a]-[z]; the statements about them assume it. *)

Definition lower_char (ch : ascii) : ascii :=
  let n := nat_of_ascii ch in
  if (65 <=? n)%nat && (n <=? 90)%nat then ascii_of_nat (n + 32) else ch.

(** [s.lower()]. *)
Definition lower (s : list ascii) : list ascii := map lower_char s.

(** [get_extension]:
    [filename.rsplit('.', 1)[1].lower() if '.' in filename else '']. *)
Definition get_extension (filename : list ascii) : list ascii :=
  if bool_decide ("."%char ∈ filename)
  then match rsplit_dot filename with
       | Some (_, ext) => lower ext
       | None => []
       end
  else [].

(** [allowed_file], for a given [app.config['ALLOWED_EXTENSIONS']]. *)
Definition allowed_file (allowed_extensions : list (list ascii))
    (filename : list ascii) : bool :=
  bool_decide ("."%char ∈ filename)
  && match rsplit_dot filename with
     | Some (_, ext) => bool_decide (lower ext ∈ allowed_extensions)
     | None => false
     end.

(** [validate_file_type] on the file name of the uploaded file; [not file]
    holds of an upload exactly when its file name is empty. *)
Definition validate_file_type (allowed_extensions : list (list ascii))
    (filename : list ascii) : bool :=
  if bool_decide (filename = []) then false
  else
    let extension := get_extension filename in
    if bool_decide (extension = []) then false
    else if negb (bool_decide (lower extension ∈ allowed_extensions)) then false
    else true.

(** [s.endswith((suffix1, suffix2, ...))]. *)
Definition endswith_any (s : list ascii) (suffixes : list (list ascii)) : bool :=
  existsb (endswith s) suffixes.

(** [generate_unique_filename]; [hex] is [uuid.uuid4().hex]. *)
Definition generate_unique_filename (hex filename : list ascii) : list ascii :=
  let extension := get_extension filename in
  if negb (bool_decide (extension = []))
  then hex ++ "."%char :: extension
  else if endswith_any (lower filename)
            (map list_ascii_of_string
               ["video"%string; "movie"%string; "mp4"%string; "avi"%string;
                "mov"%string])
  then hex ++ list_ascii_of_string ".mp4"
  else hex ++ list_ascii_of_string ".jpg".

(** Lines 422-423 of [process_file]: the file type of an upload. *)
Definition is_video (original_filename : list ascii) : bool :=
  bool_decide (lower (get_extension original_filename)
               ∈ map list_ascii_of_string
                   ["mp4"%string; "avi"%string; "mov"%string]).

(** ** Notions used to state the properties *)

(** The plain area of a box, [(x2 - x1) * (y2 - y1)]. *)
Definition geometric_area (b : box) : Z :=
  let '(x1, y1, x2, y2) := b in (x2 - x1) * (y2 - y1).

(** The area of a detector box as the detector reports it,
    [(x2 - x1) * (y2 - y1)] on the real-valued corner coordinates. *)
Definition reported_area (xyxy : Q * Q * Q * Q) : Q :=
  let '(x1, y1, x2, y2) := xyxy in ((x2 - x1) * (y2 - y1))%Q.

(** A detector box with [x1 < x2] and [y1 < y2]. *)
Definition proper_box (xyxy : Q * Q * Q * Q) : Prop :=
  let '(x1, y1, x2, y2) := xyxy in (x1 < x2)%Q ∧ (y1 < y2)%Q.

(** The detector box whose corners are the integer corners of [b]. *)
Definition pixel_box (b : box) : Q * Q * Q * Q :=
  let '(x1, y1, x2, y2) := b in
  (inject_Z x1, inject_Z y1, inject_Z x2, inject_Z y2).

Global Instance Qle_dec (x y : Q) : Decision (x <= y)%Q.
Proof.
  destruct (Qlt_le_dec y x) as [Hlt|Hle]; [right|by left].
  by apply Qlt_not_le.
Defined.

(** A raw detection survives the filter as a detection of type [vt]: its
    class id is mapped to [vt], its confidence reaches the threshold of
    [vt] and, for a motorcycle, the area of its box with the corners
    truncated to integers, clamped below at 1, is at most 5% of the frame
    area. *)
Definition survives (frame_area : Z) (d : raw_detection) (vt : vclass)
  : Prop :=
  class_map (cls d) = Some vt
  ∧ (conf_threshold vt <= conf d)%Q
  ∧ (vt = motorcycle
     → (inject_Z (Z.max 1 (geometric_area (int_box (xyxy d))))
        <= (5 # 100) * inject_Z frame_area)%Q).

Global Instance survives_dec frame_area d vt :
  Decision (survives frame_area d vt).
Proof. unfold survives. apply _. Defined.

(** A frame's filtered-detection total: the sum over the four classes of
    the sizes of the frame's buckets. *)
Definition frame_total (fa : Z) (boxes : list raw_detection) : Z :=
  Z.of_nat (length (detections_by_class fa boxes car))
  + Z.of_nat (length (detections_by_class fa boxes truck))
  + Z.of_nat (length (detections_by_class fa boxes bus))
  + Z.of_nat (length (detections_by_class fa boxes motorcycle)).

(** The largest frame total of a run (0 for the empty run). *)
Definition max_concurrent (fa : Z) (fs : list (list raw_detection)) : Z :=
  foldr (λ boxes m, Z.max (frame_total fa boxes) m) 0 fs.

(** The frames whose index is a multiple of [se], the first frame of [fs]
    having index [i]. *)
Fixpoint sampled_from {A : Type} (se i : Z) (fs : list A) : list A :=
  match fs with
  | [] => []
  | f :: fs' =>
      if i `mod` se =? 0
      then f :: sampled_from se (i + 1) fs'
      else sampled_from se (i + 1) fs'
  end.

(** The confidences of a frame's accepted detections, bucket by bucket. *)
Definition frame_confidences (fa : Z) (boxes : list raw_detection) : list Q :=
  map snd (detections_by_class fa boxes car)
  ++ map snd (detections_by_class fa boxes truck)
  ++ map snd (detections_by_class fa boxes bus)
  ++ map snd (detections_by_class fa boxes motorcycle).

(** The confidences of all accepted detections of a run. *)
Definition accepted_confidences (fa : Z) (fs : list (list raw_detection))
  : list Q :=
  concat (map (frame_confidences fa) fs).

Definition Qsum (l : list Q) : Q := foldr Qplus 0%Q l.

(** The IoU of a track box against detection [j] of [dets]. *)
Definition iou_of (tbox : box) (dets : list detection) (j : nat) : option Q :=
  (λ d, _compute_iou tbox d.1) <$> dets !! j.

(** Detection [j], of IoU [q], is the first-found maximum among the
    detections not yet used: no unused detection has a larger IoU and every
    earlier unused one has a strictly smaller IoU. *)
Definition first_best (tbox : box) (dets : list detection)
    (used : gset nat) (j : nat) (q : Q) : Prop :=
  (j ∉ used)
  ∧ iou_of tbox dets j = Some q
  ∧ (∀ k q', k ∉ used → iou_of tbox dets k = Some q' → (q' <= q)%Q)
  ∧ (∀ k q', (k < j)%nat → k ∉ used → iou_of tbox dets k = Some q'
       → (q' < q)%Q).

(** What an assignment does to a track. *)
Definition updated (frame_idx : Z) (dbox : box) (t t' : track) : Prop :=
  id t' = id t ∧ bbox t' = dbox ∧ last_seen t' = frame_idx
  ∧ hits t' = hits t + 1.

(** The greedy contract of one class in one frame, over the tracks in store
    order: [greedy_spec idx dets used ts ts' log] relates the tracks [ts]
    and the set [used] of detections already taken to the tracks [ts'] after
    matching; [log] records, track by track, the detection assigned. *)
Inductive greedy_spec (frame_idx : Z) (dets : list detection)
  : gset nat → list track → list track → list (option nat) → Prop :=
| greedy_done used :
    greedy_spec frame_idx dets used [] [] []
| greedy_assign used t t' ts ts' log j q dbox dconf :
    first_best (bbox t) dets used j q →
    (iou_thresh <= q)%Q →
    dets !! j = Some (dbox, dconf) →
    updated frame_idx dbox t t' →
    greedy_spec frame_idx dets ({[j]} ∪ used) ts ts' log →
    greedy_spec frame_idx dets used (t :: ts) (t' :: ts') (Some j :: log)
| greedy_skip used t ts ts' log :
    (∀ j q, first_best (bbox t) dets used j q
       → (q < iou_thresh)%Q ∨ (q <= 0)%Q) →
    greedy_spec frame_idx dets used ts ts' log →
    greedy_spec frame_idx dets used (t :: ts) (t :: ts') (None :: log).

(** The run of the greedy loop as the code performs it: every iteration
    either hits the track with the detection [assigned] to it or leaves the
    track alone. *)
Inductive matched_run (frame_idx : Z) (dets : list detection)
  : gset nat → Z → list track → list track → gset nat → Z → Prop :=
| matched_nil used uc :
    matched_run frame_idx dets used uc [] [] used uc
| matched_hit used uc t ts ts' used' uc' j dbox dconf :
    assigned dets t used = Some j →
    dets !! j = Some (dbox, dconf) →
    matched_run frame_idx dets ({[j]} ∪ used) (hit frame_idx dbox t uc).2
      ts ts' used' uc' →
    matched_run frame_idx dets used uc (t :: ts)
      ((hit frame_idx dbox t uc).1 :: ts') used' uc'
| matched_miss used uc t ts ts' used' uc' :
    assigned dets t used = None →
    matched_run frame_idx dets used uc ts ts' used' uc' →
    matched_run frame_idx dets used uc (t :: ts) (t :: ts') used' uc'.

(** The scan of [best_match] has looked at the detections before position
    [j0]: [best_iou] bounds their IoU, and [best_j], when set, is their
    first-found maximum, of positive IoU. *)
Definition scan_inv (tbox : box) (dets : list detection) (used : gset nat)
    (j0 : nat) (best_j : option nat) (best_iou : Q) : Prop :=
  (∀ k q', (k < j0)%nat → k ∉ used → iou_of tbox dets k = Some q'
     → (q' <= best_iou)%Q)
  ∧ match best_j with
    | None => best_iou = 0%Q
    | Some j =>
        (j < j0)%nat ∧ (j ∉ used) ∧ iou_of tbox dets j = Some best_iou
        ∧ (0 < best_iou)%Q
        ∧ (∀ k q', (k < j)%nat → k ∉ used → iou_of tbox dets k = Some q'
             → (q' < best_iou)%Q)
    end.

(** The detections assigned by a run of the matcher, from its log. *)
Definition assigned_indices (log : list (option nat)) : list nat :=
  omap (λ o, o) log.

(** A stored track has been hit at least once and is counted exactly when
    its hits have reached the confirmation threshold. *)
Definition track_ok (t : track) : Prop :=
  1 <= hits t ∧ (counted t = true ↔ CONFIRM_HITS <= hits t).

(** Between [o] and [n] the hit counter reaches the confirmation threshold
    for the first time. *)
Definition confirms (o n : track) : Prop :=
  hits o < CONFIRM_HITS ∧ CONFIRM_HITS <= hits n.

Global Instance confirms_dec o n : Decision (confirms o n).
Proof. unfold confirms. apply _. Defined.

(** The number of tracks that get confirmed between two snapshots of the
    same tracks. *)
Definition confirmations (old new : list track) : nat :=
  length (filter (λ p, confirms p.1 p.2) (zip old new)).

(** How a track may differ between the start of a frame's matching and its
    end. *)
Definition track_transition (o n : track) : Prop :=
  id n = id o
  ∧ (hits n = hits o ∨ hits n = hits o + 1)
  ∧ (confirms o n
     → counted o = false ∧ counted n = true ∧ hits n = CONFIRM_HITS)
  ∧ (counted n = true → counted o = true ∨ confirms o n)
  ∧ (counted o = true → counted n = true ∧ ¬ confirms o n).

(** The tracks not yet counted. *)
Definition uncounted (ts : list track) : Z :=
  Z.of_nat (length (filter (λ t, counted t = false) ts)).

(** The boxes of the detections from position [j] on that are not used. *)
Fixpoint unmatched (dets : list detection) (j : nat) (used : gset nat)
  : list box :=
  match dets with
  | [] => []
  | (dbox, _) :: dets' =>
      if decide (j ∈ used) then unmatched dets' (S j) used
      else dbox :: unmatched dets' (S j) used
  end.

(** Fresh tracks for a list of boxes, with consecutive ids from [next_id]
    on. *)
Fixpoint new_tracks (frame_idx next_id : Z) (boxes : list box) : list track :=
  match boxes with
  | [] => []
  | dbox :: boxes' =>
      {| id := next_id; bbox := dbox; last_seen := frame_idx;
         hits := 1; counted := false |}
      :: new_tracks frame_idx (next_id + 1) boxes'
  end.

(** Identity [i] has been issued and no stored track carries it. *)
Definition retired (i : Z) (ts : list track) (next_id : Z) : Prop :=
  i < next_id ∧ ∀ t, t ∈ ts → id t ≠ i.

(** The invariant of a class's store, next id and unique count. *)
Definition class_inv (ts : list track) (next_id uc : Z) : Prop :=
  Forall track_ok ts
  ∧ Forall (λ t, 1 <= id t < next_id) ts
  ∧ NoDup (map id ts)
  ∧ 0 <= uc
  ∧ uc + uncounted ts <= next_id - 1.

(** The interiors of two boxes meet: both boxes have positive width and
    height and each starts, on both axes, before the other ends. *)
Definition overlapping (box_a box_b : box) : Prop :=
  let '(ax1, ay1, ax2, ay2) := box_a in
  let '(bx1, by1, bx2, by2) := box_b in
  non_degenerate box_a ∧ non_degenerate box_b
  ∧ ax1 < bx2 ∧ bx1 < ax2 ∧ ay1 < by2 ∧ by1 < ay2.

(** What one frame's matching may do to a surviving track: nothing at all,
    or one hit by a detection of the frame whose box overlaps the track's
    box with a positive IoU of at least the threshold. *)
Definition track_step (frame_idx : Z) (dets : list detection) (o n : track)
  : Prop :=
  n = o
  ∨ (id n = id o ∧ hits n = hits o + 1 ∧ last_seen n = frame_idx
     ∧ (∃ dconf, (bbox n, dconf) ∈ dets)
     ∧ (0 < _compute_iou (bbox o) (bbox n))%Q
     ∧ (iou_thresh <= _compute_iou (bbox o) (bbox n))%Q).

(** The number of tracks hit between two snapshots of the same tracks. *)
Definition hits_made (old new : list track) : nat :=
  length (filter (λ p, hits p.2 = hits p.1 + 1) (zip old new)).

(** The indices, among the [n] detections of a frame, of the detections
    that the log of the matcher assigns to no track, in detection order. *)
Definition unassigned (log : list (option nat)) (n : nat) : list nat :=
  filter (λ j, j ∉ assigned_indices log) (seq 0 n).

(** What a log entry says of its track: with [Some j] the track took
    detection [j] and was updated from it, with [None] it is as it was. *)
Definition logged_step (frame_idx : Z) (dets : list detection)
    (o : track) (entry : option nat) (n : track) : Prop :=
  match entry with
  | Some j =>
      ∃ dbox dconf, dets !! j = Some (dbox, dconf) ∧ updated frame_idx dbox o n
  | None => n = o
  end.

(** Track [t] was created in frame [frame_idx] from detection [j]. *)
Definition created_from (frame_idx : Z) (dets : list detection)
    (j : nat) (t : track) : Prop :=
  (∃ dconf, dets !! j = Some (bbox t, dconf))
  ∧ last_seen t = frame_idx ∧ hits t = 1 ∧ counted t = false.

(** A stored track at the frame boundary before frame [frame_idx]: it was
    hit at least once, at most once per frame up to the frame it was last
    seen in, which is an earlier frame and at most [TRACK_TIMEOUT] frames
    before the last processed one. *)
Definition track_fresh (frame_idx : Z) (t : track) : Prop :=
  1 <= hits t ∧ hits t <= last_seen t + 1
  ∧ 0 <= last_seen t < frame_idx
  ∧ frame_idx - 1 - last_seen t <= TRACK_TIMEOUT.

(** The hits that the stored tracks not yet counted have collected. *)
Definition credit (ts : list track) : Z :=
  foldr (λ t acc, (if counted t then 0 else hits t) + acc) 0 ts.

(** The number of detections accepted for a class over the frames of a
    run. *)
Definition class_detections (fa : Z) (fs : list (list raw_detection))
    (c : vclass) : Z :=
  foldr (λ boxes acc, Z.of_nat (length (detections_by_class fa boxes c)) + acc)
    0 fs.

(** A frame with the raw detections of every class other than [c], and of
    unmapped class ids, removed. *)
Definition only_class (c : vclass) (boxes : list raw_detection)
  : list raw_detection :=
  filter (λ d, class_map (cls d) = Some c) boxes.

(** The number of tracks of a list that fall in a lane. *)
Definition in_lane (lh : Z * Z) (l : lane) (ts : list track) : Z :=
  Z.of_nat (length (filter (λ t, lane_of lh (bbox t) = l) ts)).

(** The vertical centre of a box, [(y1 + y2) // 2]. *)
Definition center_y (b : box) : Z :=
  let '(x1, y1, x2, y2) := b in (y1 + y2) `div` 2.

(** A string of ASCII characters. *)
Definition ascii_only (s : list ascii) : Prop :=
  Forall (λ ch, (nat_of_ascii ch < 128)%nat) s.

(** ** Facts about the geometry utility *)

Lemma inter_area_comm a b : inter_area a b = inter_area b a.
Proof.
  destruct a as [[[ax1 ay1] ax2] ay2], b as [[[bx1 by1] bx2] by2]; simpl.
  by rewrite (Z.max_comm ax1), (Z.max_comm ay1), (Z.min_comm ax2), (Z.min_comm ay2).
Qed.

Lemma union_area_comm a b : union_area a b = union_area b a.
Proof. unfold union_area. rewrite (inter_area_comm a b). lia. Qed.

Lemma inter_area_nonneg a b : 0 <= inter_area a b.
Proof.
  destruct a as [[[ax1 ay1] ax2] ay2], b as [[[bx1 by1] bx2] by2]; simpl.
  apply Z.mul_nonneg_nonneg; lia.
Qed.

Lemma inter_area_le_l a b : inter_area a b <= area a.
Proof.
  destruct a as [[[ax1 ay1] ax2] ay2], b as [[[bx1 by1] bx2] by2]; simpl.
  apply Z.mul_le_mono_nonneg; lia.
Qed.

Lemma inter_area_le_r a b : inter_area a b <= area b.
Proof. rewrite inter_area_comm. apply inter_area_le_l. Qed.

Lemma inter_le_union a b : inter_area a b <= union_area a b.
Proof.
  unfold union_area.
  pose proof (inter_area_le_l a b). pose proof (inter_area_le_r a b). lia.
Qed.

Lemma inter_area_self a : inter_area a a = area a.
Proof.
  destruct a as [[[x1 y1] x2] y2]; simpl.
  by rewrite !Z.max_id, !Z.min_id.
Qed.

Lemma area_pos a : non_degenerate a → 0 < area a.
Proof.
  destruct a as [[[x1 y1] x2] y2]; simpl. intros [??].
  apply Z.mul_pos_pos; lia.
Qed.

Lemma inter_area_disjoint a b : disjoint_boxes a b → inter_area a b = 0.
Proof.
  destruct a as [[[ax1 ay1] ax2] ay2], b as [[[bx1 by1] bx2] by2]; simpl.
  intros Hd.
  assert (Z.max 0 (Z.min ax2 bx2 - Z.max ax1 bx1) = 0
          ∨ Z.max 0 (Z.min ay2 by2 - Z.max ay1 by1) = 0) as [->| ->] by lia; lia.
Qed.

Lemma iou_nonneg a b : (0 <= _compute_iou a b)%Q.
Proof.
  unfold _compute_iou. destruct (Z.ltb_spec 0 (union_area a b)) as [Hu|Hu].
  - apply Qle_shift_div_l.
    + change 0%Q with (inject_Z 0). by rewrite <- Zlt_Qlt.
    + rewrite Qmult_0_l. change 0%Q with (inject_Z 0). rewrite <- Zle_Qle.
      apply inter_area_nonneg.
  - apply Qle_refl.
Qed.

Lemma iou_le_1 a b : (_compute_iou a b <= 1)%Q.
Proof.
  unfold _compute_iou. destruct (Z.ltb_spec 0 (union_area a b)) as [Hu|Hu].
  - apply Qle_shift_div_r.
    + change 0%Q with (inject_Z 0). by rewrite <- Zlt_Qlt.
    + rewrite Qmult_1_l. rewrite <- Zle_Qle. apply inter_le_union.
  - discriminate.
Qed.

(** C8.  [_compute_iou] is symmetric, is 1 on a non-degenerate box against
    itself, is 0 on boxes that do not overlap, always lies in [0,1], its
    intersection area is never negative, and it returns 0 whenever the
    union area is zero. *)
Theorem iou_properties :
  (∀ a b, _compute_iou a b = _compute_iou b a)
  ∧ (∀ a, non_degenerate a → (_compute_iou a a == 1)%Q)
  ∧ (∀ a b, disjoint_boxes a b → (_compute_iou a b == 0)%Q)
  ∧ (∀ a b, (0 <= _compute_iou a b)%Q ∧ (_compute_iou a b <= 1)%Q)
  ∧ (∀ a b, 0 <= inter_area a b)
  ∧ (∀ a b, union_area a b = 0 → _compute_iou a b = 0%Q).
Proof.
  repeat split.
  - intros a b. unfold _compute_iou.
    by rewrite (union_area_comm a b), (inter_area_comm a b).
  - intros a Ha. unfold _compute_iou, union_area.
    rewrite inter_area_self. pose proof (area_pos a Ha) as Hp.
    replace (area a + area a - area a) with (area a) by lia.
    destruct (Z.ltb_spec 0 (area a)); [|lia].
    unfold Qdiv. apply Qmult_inv_r.
    intros Hz. unfold Qeq in Hz. simpl in Hz. lia.
  - intros a b Hd. unfold _compute_iou. rewrite (inter_area_disjoint a b Hd).
    destruct (0 <? union_area a b); [|reflexivity].
    unfold Qdiv. apply Qmult_0_l.
  - apply iou_nonneg.
  - apply iou_le_1.
  - intros a b. apply inter_area_nonneg.
  - intros a b Hu. unfold _compute_iou. by rewrite Hu.
Qed.

(** ** The frame loop, class by class *)

Lemma track_class_frame_idx dbc acc vtype :
  frame_idx (track_class dbc acc vtype).1 = frame_idx acc.1.
Proof. reflexivity. Qed.

Lemma track_class_class dbc acc vtype c :
  let st := acc.1 in
  let st' := (track_class dbc acc vtype).1 in
  (tracks st' c, next_track_id st' c, unique_counts st' c)
  = if decide (vtype = c)
    then update_class (frame_idx st) (dbc c) (tracks st c)
           (next_track_id st c) (unique_counts st c)
    else (tracks st c, next_track_id st c, unique_counts st c).
Proof.
  cbn [track_class fst tracks next_track_id unique_counts].
  destruct (decide (vtype = c)) as [->|Hne].
  - rewrite !fn_lookup_insert. by destruct (update_class _ _ _ _ _) as [[??]?].
  - by rewrite !fn_lookup_insert_ne.
Qed.

(** Within a frame the four classes do not interact: each class's store,
    next id and unique count are updated from that class's own data. *)
Lemma process_frame_class fa se st boxes c :
  let st' := process_frame fa se st boxes in
  (tracks st' c, next_track_id st' c, unique_counts st' c)
  = update_class (frame_idx st) (detections_by_class fa boxes c)
      (tracks st c) (next_track_id st c) (unique_counts st c).
Proof.
  unfold process_frame, vehicle_types. cbn [foldl tracks next_track_id unique_counts].
  set (dbc := detections_by_class fa boxes).
  rewrite !track_class_class.
  repeat rewrite !track_class_frame_idx. cbn [fst].
  destruct c; repeat (first [ rewrite decide_True by done
                            | rewrite decide_False by done ]); done.
Qed.

Lemma process_frame_idx fa se st boxes :
  frame_idx (process_frame fa se st boxes) = frame_idx st + 1.
Proof. reflexivity. Qed.

Lemma process_frame_count fa se st boxes :
  frame_count (process_frame fa se st boxes) = frame_count st + 1.
Proof. reflexivity. Qed.

Lemma run_from_snoc fa se st fs boxes :
  run_from fa se st (fs ++ [boxes])
  = process_frame fa se (run_from fa se st fs) boxes.
Proof. unfold run_from. by rewrite foldl_app. Qed.

Lemma run_snoc v fs boxes :
  run v (fs ++ [boxes])
  = process_frame (width v * height v) (sample_every_of (fps v)) (run v fs) boxes.
Proof. unfold run. by rewrite run_from_snoc. Qed.

Lemma run_frame_idx v fs : frame_idx (run v fs) = Z.of_nat (length fs).
Proof.
  induction fs as [|boxes fs IH] using rev_ind; [done|].
  rewrite run_snoc, process_frame_idx, IH, length_app. simpl. lia.
Qed.

Lemma run_frame_count v fs : frame_count (run v fs) = Z.of_nat (length fs).
Proof.
  induction fs as [|boxes fs IH] using rev_ind; [done|].
  rewrite run_snoc, process_frame_count, IH, length_app. simpl. lia.
Qed.

(** ** Detection filter *)

Lemma Qltb_false x y : Qltb x y = false ↔ (y <= x)%Q.
Proof.
  unfold Qltb. rewrite negb_false_iff. apply Qle_bool_iff.
Qed.

Lemma Qltb_true x y : Qltb x y = true ↔ (x < y)%Q.
Proof.
  unfold Qltb. rewrite negb_true_iff. split.
  - intros H. apply Qnot_le_lt. intros Hle.
    apply Qle_bool_iff in Hle. congruence.
  - intros H. destruct (Qle_bool y x) eqn:E; [|done].
    apply Qle_bool_iff in E. by apply Qlt_not_le in H.
Qed.

Lemma class_map_spec c vt :
  class_map c = Some vt
  ↔ (c = 2 ∧ vt = car) ∨ (c = 3 ∧ vt = motorcycle)
    ∨ (c = 5 ∧ vt = bus) ∨ (c = 7 ∧ vt = truck).
Proof.
  unfold class_map. split.
  - intros Heq. repeat case_match; simplify_eq;
      repeat match goal with
        | H : (_ =? _) = true |- _ => apply Z.eqb_eq in H
        end; auto 10.
  - intros [[-> ->]|[[-> ->]|[[-> ->]|[-> ->]]]]; reflexivity.
Qed.

Lemma accept_spec fa d vt det :
  accept fa d = Some (vt, det)
  ↔ class_map (cls d) = Some vt
    ∧ (conf_threshold vt <= conf d)%Q
    ∧ (vt = motorcycle
       → (inject_Z (box_area (int_box (xyxy d))) <= (5 # 100) * inject_Z fa)%Q)
    ∧ det = (int_box (xyxy d), conf d).
Proof.
  unfold accept. cbv zeta. destruct (class_map (cls d)) as [vt'|].
  2:{ split; [done|]. by intros [? _]. }
  destruct (Qltb (conf d) (conf_threshold vt')) eqn:Ec.
  - apply Qltb_true in Ec. split; [done|].
    intros (Hc & Hle & _). simplify_eq. by apply Qlt_not_le in Ec.
  - apply Qltb_false in Ec.
    destruct (bool_decide (vt' = motorcycle)) eqn:Em; simpl.
    + apply bool_decide_eq_true in Em as ->.
      destruct (Qltb _ _) eqn:Ea.
      * apply Qltb_true in Ea. split; [done|].
        intros (Hc & _ & Hle & _). simplify_eq.
        apply Qlt_not_le in Ea. by destruct Ea; apply Hle.
      * apply Qltb_false in Ea. split.
        -- by intros [= <- <-].
        -- intros (Hc & _ & _ & ->). by simplify_eq.
    + apply bool_decide_eq_false in Em. split.
      * by intros [= <- <-].
      * intros (Hc & _ & _ & ->). by simplify_eq.
Qed.

Lemma detections_by_class_spec fa boxes vt det :
  det ∈ detections_by_class fa boxes vt
  ↔ ∃ d, d ∈ boxes ∧ accept fa d = Some (vt, det).
Proof.
  induction boxes as [|d boxes IH]; simpl.
  - split; [by intros ?%elem_of_nil|]. intros (? & ?%elem_of_nil & _). done.
  - destruct (accept fa d) as [[vt' det']|] eqn:Ea.
    + destruct (decide (vt' = vt)) as [->|Hne].
      * rewrite elem_of_cons, IH. split.
        -- intros [->|(d' & ? & ?)]; [exists d|exists d']; rewrite elem_of_cons; eauto.
        -- intros (d' & [->|?]%elem_of_cons & Hd'); [left; congruence|right; eauto].
      * rewrite IH. split.
        -- intros (d' & ? & ?). exists d'. rewrite elem_of_cons. eauto.
        -- intros (d' & [->|?]%elem_of_cons & Hd'); [congruence|eauto].
    + rewrite IH. split.
      * intros (d' & ? & ?). exists d'. rewrite elem_of_cons. eauto.
      * intros (d' & [->|?]%elem_of_cons & Hd'); [congruence|eauto].
Qed.

Lemma box_area_clamp b : box_area b = Z.max 1 (geometric_area b).
Proof. by destruct b as [[[??]?]?]. Qed.

Lemma accept_survives fa d vt det :
  accept fa d = Some (vt, det)
  ↔ survives fa d vt ∧ det = (int_box (xyxy d), conf d).
Proof.
  rewrite accept_spec, box_area_clamp. unfold survives. tauto.
Qed.

(** A bucket is the list of the surviving detections of its type, in the
    order of the detector's list. *)
Lemma detections_by_class_filter fa boxes vt :
  detections_by_class fa boxes vt
  = map (λ d, (int_box (xyxy d), conf d))
      (filter (λ d, survives fa d vt) boxes).
Proof.
  induction boxes as [|d boxes IH]; [done|]. simpl. rewrite filter_cons.
  destruct (accept fa d) as [[vt' det]|] eqn:Ea.
  - apply accept_survives in Ea as [Hs ->].
    destruct (decide (vt' = vt)) as [->|Hne].
    + rewrite decide_True by done. simpl. by rewrite IH.
    + rewrite decide_False; [done|].
      intros (Hc & _). destruct Hs as (Hc' & _). congruence.
  - rewrite decide_False; [done|]. intros Hs.
    assert (accept fa d = Some (vt, (int_box (xyxy d), conf d))) as Hacc
      by (by apply accept_survives).
    congruence.
Qed.

(** [int] truncates toward zero. *)
Lemma int_of_float_trunc q :
  ((0 <= q)%Q
   → (inject_Z (int_of_float q) <= q)%Q ∧ (q < inject_Z (int_of_float q) + 1)%Q)
  ∧ ((q <= 0)%Q
     → (q <= inject_Z (int_of_float q))%Q
       ∧ (inject_Z (int_of_float q) - 1 < q)%Q).
Proof.
  unfold int_of_float. destruct (Qle_bool 0 q) eqn:E.
  - apply Qle_bool_iff in E. split.
    + intros _. split; [apply Qfloor_le|].
      rewrite <- (inject_Z_plus _ 1). apply Qlt_floor.
    + intros Hle. assert (q == 0)%Q as Hz by (by apply Qle_antisym).
      rewrite (Qfloor_comp _ _ Hz), Hz. by split.
  - assert (q < 0)%Q as Hlt.
    { apply Qnot_le_lt. intros Hle. apply Qle_bool_iff in Hle. congruence. }
    split.
    + intros Hle. by apply Qlt_not_le in Hlt.
    + intros _. split; [apply Qle_ceiling|].
      pose proof (Qceiling_lt q) as Hc. unfold Z.sub in Hc.
      rewrite inject_Z_plus, inject_Z_opp in Hc. exact Hc.
Qed.

Lemma int_of_float_inject_Z z : int_of_float (inject_Z z) = z.
Proof.
  unfold int_of_float. destruct (Qle_bool 0 (inject_Z z)).
  - apply Qfloor_Z.
  - apply Qceiling_Z.
Qed.

Lemma int_box_pixel_box b : int_box (pixel_box b) = b.
Proof.
  destruct b as [[[x1 y1] x2] y2]. simpl.
  by rewrite !int_of_float_inject_Z.
Qed.

(** C6 (as amended).  The class map covers exactly car, motorcycle, bus and
    truck; a raw detection is accepted into the bucket of its class exactly
    when its class id is mapped, its confidence is at least the threshold of
    its class (the motorcycle threshold for motorcycles, the global one
    otherwise) and, for a motorcycle, the area of its box with the corner
    coordinates truncated to integers, clamped below at 1, is at most 5% of
    the frame area; the bucket entry is the truncated box and the
    detection's own confidence, and a bucket is exactly the list of the
    surviving detections of its type, in the detector's order.  Truncation
    is toward zero and leaves a box with integer corners as it is; on a box
    with [x1 < x2] and [y1 < y2] the clamp changes nothing, and from a frame
    area of 20 pixels on it changes no decision. *)
Theorem detection_filter :
  (∀ c vt, class_map c = Some vt
     ↔ (c = 2 ∧ vt = car) ∨ (c = 3 ∧ vt = motorcycle)
       ∨ (c = 5 ∧ vt = bus) ∨ (c = 7 ∧ vt = truck))
  ∧ conf_threshold motorcycle = motorcycle_conf
  ∧ (∀ vt, vt ≠ motorcycle → conf_threshold vt = conf_global)
  ∧ (∀ fa d vt det,
       accept fa d = Some (vt, det)
       ↔ class_map (cls d) = Some vt
         ∧ (conf_threshold vt <= conf d)%Q
         ∧ (vt = motorcycle
            → (inject_Z (Z.max 1 (geometric_area (int_box (xyxy d))))
               <= (5 # 100) * inject_Z fa)%Q)
         ∧ det = (int_box (xyxy d), conf d))
  ∧ (∀ fa boxes vt,
       detections_by_class fa boxes vt
       = map (λ d, (int_box (xyxy d), conf d))
           (filter (λ d, survives fa d vt) boxes))
  ∧ (∀ q,
       ((0 <= q)%Q
        → (inject_Z (int_of_float q) <= q)%Q
          ∧ (q < inject_Z (int_of_float q) + 1)%Q)
       ∧ ((q <= 0)%Q
          → (q <= inject_Z (int_of_float q))%Q
            ∧ (inject_Z (int_of_float q) - 1 < q)%Q))
  ∧ (∀ b, int_box (pixel_box b) = b)
  ∧ (∀ b, non_degenerate b → Z.max 1 (geometric_area b) = geometric_area b)
  ∧ (∀ fa a, 20 <= fa →
       (inject_Z (Z.max 1 a) <= (5 # 100) * inject_Z fa)%Q
       ↔ (inject_Z a <= (5 # 100) * inject_Z fa)%Q).
Proof.
  split; [apply class_map_spec|].
  split; [done|].
  split; [by intros [] ?|].
  split; [|split; [apply detections_by_class_filter|]].
  { intros fa d vt det. by rewrite accept_spec, box_area_clamp. }
  split; [apply int_of_float_trunc|].
  split; [apply int_box_pixel_box|].
  split.
  - intros [[[x1 y1] x2] y2] [Hx Hy]. simpl. nia.
  - intros fa a Hfa. unfold Qle. simpl. lia.
Qed.

(** ** Empty runs *)

(** C3.  When no frame is processed, [process_video] raises: it returns an
    error and no result record; with the capture and the writer open the
    error is the [ValueError] of line 283. *)
Theorem empty_run_raises v out_opened :
  frames v = [] →
  (∃ e, process_video v out_opened = inl e)
  ∧ (cap_opened v = true → out_opened = true →
     process_video v out_opened
     = inl (ValueError "No frames were processed from the video")).
Proof.
  intros Hf. unfold process_video. rewrite Hf.
  destruct (cap_opened v), out_opened; simpl; (split; [eauto|by intros ??]).
Qed.

(** ** Density and confidence aggregation *)

Lemma add_confidences_count dets sum count :
  (add_confidences dets sum count).2 = count + Z.of_nat (length dets).
Proof.
  revert sum count. induction dets as [|[dbox dconf] dets IH]; intros; simpl.
  - lia.
  - rewrite IH. lia.
Qed.

Lemma add_confidences_sum dets sum count :
  ((add_confidences dets sum count).1 == sum + Qsum (map snd dets))%Q.
Proof.
  revert sum count. induction dets as [|[dbox dconf] dets IH]; intros; simpl.
  - by rewrite Qplus_0_r.
  - rewrite IH. simpl. by rewrite Qplus_assoc.
Qed.

Lemma Qsum_app l1 l2 : (Qsum (l1 ++ l2) == Qsum l1 + Qsum l2)%Q.
Proof.
  induction l1 as [|x l1 IH]; simpl.
  - by rewrite Qplus_0_l.
  - rewrite IH. by rewrite Qplus_assoc.
Qed.

Lemma track_class_total dbc acc vtype :
  (track_class dbc acc vtype).2 = acc.2 + Z.of_nat (length (dbc vtype)).
Proof. reflexivity. Qed.

Lemma track_class_max dbc acc vtype :
  max_total_concurrent (track_class dbc acc vtype).1 = max_total_concurrent acc.1.
Proof. reflexivity. Qed.

Lemma track_class_series dbc acc vtype :
  density_series (track_class dbc acc vtype).1 = density_series acc.1.
Proof. reflexivity. Qed.

Lemma track_class_conf_count dbc acc vtype :
  accepted_conf_count (track_class dbc acc vtype).1
  = accepted_conf_count acc.1 + Z.of_nat (length (dbc vtype)).
Proof. apply add_confidences_count. Qed.

Lemma track_class_conf_sum dbc acc vtype :
  (accepted_conf_sum (track_class dbc acc vtype).1
   == accepted_conf_sum acc.1 + Qsum (map snd (dbc vtype)))%Q.
Proof. apply add_confidences_sum. Qed.

Lemma process_frame_max fa se st boxes :
  max_total_concurrent (process_frame fa se st boxes)
  = Z.max (max_total_concurrent st) (frame_total fa boxes).
Proof.
  unfold process_frame, vehicle_types.
  cbn [foldl max_total_concurrent].
  rewrite !track_class_max, !track_class_total. cbn [fst snd].
  unfold frame_total. case_match; lia.
Qed.

Lemma process_frame_series fa se st boxes :
  density_series (process_frame fa se st boxes)
  = density_series st
    ++ (if frame_idx st `mod` se =? 0
        then [density_pct (frame_total fa boxes)] else []).
Proof.
  unfold process_frame, vehicle_types.
  cbn [foldl density_series].
  rewrite !track_class_series, !track_class_total, !track_class_frame_idx.
  cbn [fst snd]. unfold frame_total. rewrite Z.add_0_l.
  case_match; by rewrite ?app_nil_r.
Qed.

Lemma process_frame_conf_count fa se st boxes :
  accepted_conf_count (process_frame fa se st boxes)
  = accepted_conf_count st + Z.of_nat (length (frame_confidences fa boxes)).
Proof.
  unfold process_frame, vehicle_types.
  cbn [foldl accepted_conf_count].
  rewrite !track_class_conf_count. cbn [fst].
  unfold frame_confidences. rewrite !length_app, !length_map. lia.
Qed.

Lemma process_frame_conf_sum fa se st boxes :
  (accepted_conf_sum (process_frame fa se st boxes)
   == accepted_conf_sum st + Qsum (frame_confidences fa boxes))%Q.
Proof.
  unfold process_frame, vehicle_types.
  cbn [foldl accepted_conf_sum].
  rewrite !track_class_conf_sum. cbn [fst].
  unfold frame_confidences. rewrite !Qsum_app. by rewrite !Qplus_assoc.
Qed.

Lemma max_concurrent_snoc fa fs boxes :
  max_concurrent fa (fs ++ [boxes])
  = Z.max (max_concurrent fa fs) (frame_total fa boxes).
Proof.
  induction fs as [|f fs IH]; simpl.
  - lia.
  - fold (max_concurrent fa (fs ++ [boxes])). rewrite IH.
    fold (max_concurrent fa fs). lia.
Qed.

Lemma run_max v fs :
  max_total_concurrent (run v fs) = max_concurrent (width v * height v) fs.
Proof.
  induction fs as [|boxes fs IH] using rev_ind; [done|].
  by rewrite run_snoc, process_frame_max, IH, max_concurrent_snoc.
Qed.

Lemma frame_total_nonneg fa boxes : 0 <= frame_total fa boxes.
Proof. unfold frame_total. lia. Qed.

Lemma max_concurrent_upper fa fs boxes :
  boxes ∈ fs → frame_total fa boxes <= max_concurrent fa fs.
Proof.
  induction fs as [|f fs IH]; [by intros ?%elem_of_nil|].
  intros [->|Hin]%elem_of_cons; simpl; fold (max_concurrent fa fs).
  - lia.
  - specialize (IH Hin). lia.
Qed.

Lemma max_concurrent_attained fa fs :
  fs ≠ [] → ∃ boxes, boxes ∈ fs ∧ frame_total fa boxes = max_concurrent fa fs.
Proof.
  induction fs as [|f fs IH]; [done|]. intros _.
  simpl; fold (max_concurrent fa fs).
  destruct fs as [|f' fs].
  - exists f. split; [apply list_elem_of_here|].
    pose proof (frame_total_nonneg fa f). unfold max_concurrent. simpl. lia.
  - destruct IH as (b & Hb & Hmax); [done|].
    destruct (Z.max_spec (frame_total fa f) (max_concurrent fa (f' :: fs)))
      as [[_ ->]|[_ ->]].
    + exists b. split; [by apply list_elem_of_further|done].
    + exists f. split; [apply list_elem_of_here|done].
Qed.

Lemma process_video_ok v :
  cap_opened v = true → frames v ≠ [] →
  process_video v true = inr (summarize (run v (frames v))).
Proof.
  intros Ho Hf. unfold process_video. rewrite Ho. simpl.
  rewrite run_frame_count.
  destruct (Z.eqb_spec (Z.of_nat (length (frames v))) 0) as [E|E]; [|done].
  destruct (frames v); [done|simpl in E; lia].
Qed.

Lemma density_pct_eq total :
  (density_pct total == Qmin 100 (100 * inject_Z total / 45))%Q.
Proof.
  unfold density_pct. apply Q.min_compat; [reflexivity|].
  change (inject_Z (MAX_VEHICLES_PER_LANE * NUM_LANES)) with 45%Q. field.
Qed.

Lemma density_pct_range total :
  0 <= total → (0 <= density_pct total)%Q ∧ (density_pct total <= 100)%Q.
Proof.
  intros Ht. split; [|apply Q.le_min_l].
  apply Q.min_glb; [done|].
  change (inject_Z (MAX_VEHICLES_PER_LANE * NUM_LANES)) with 45%Q.
  apply Qmult_le_0_compat; [|done].
  apply Qle_shift_div_l; [done|]. rewrite Qmult_0_l.
  change 0%Q with (inject_Z 0). by rewrite <- Zle_Qle.
Qed.

Lemma sampled_from_snoc {A} se i (fs : list A) f :
  sampled_from se i (fs ++ [f])
  = sampled_from se i fs
    ++ (if (i + Z.of_nat (length fs)) `mod` se =? 0 then [f] else []).
Proof.
  revert i. induction fs as [|g fs IH]; intros i; simpl.
  - rewrite Z.add_0_r. by case_match.
  - rewrite IH. replace (i + 1 + Z.of_nat (length fs))
      with (i + Z.pos (Pos.of_succ_nat (length fs))) by lia.
    by case_match.
Qed.

Lemma run_series v fs :
  density_series (run v fs)
  = map (λ boxes, density_pct (frame_total (width v * height v) boxes))
      (sampled_from (sample_every_of (fps v)) 0 fs).
Proof.
  induction fs as [|boxes fs IH] using rev_ind; [done|].
  rewrite run_snoc, process_frame_series, IH, run_frame_idx.
  rewrite sampled_from_snoc, map_app, Z.add_0_l. by case_match.
Qed.

Lemma sample_every_pos fps : 1 <= sample_every_of fps.
Proof. unfold sample_every_of. lia. Qed.

(** One more frame adds a sample exactly when its index is a multiple of
    the sampling period. *)
Lemma ceil_div_succ n se :
  0 <= n → 1 <= se →
  (n + 1 + se - 1) `div` se
  = (n + se - 1) `div` se + (if n `mod` se =? 0 then 1 else 0).
Proof.
  intros Hn Hse.
  pose proof (Z.div_mod n se ltac:(lia)) as Hdm.
  pose proof (Z.mod_pos_bound n se ltac:(lia)) as Hb.
  set (q := n `div` se) in *. set (r := n `mod` se) in *.
  destruct (Z.eqb_spec r 0) as [Hr|Hr].
  - replace (n + 1 + se - 1) with ((q + 1) * se + 0) by lia.
    replace (n + se - 1) with (q * se + (se - 1)) by lia.
    rewrite !Z.div_add_l by lia.
    rewrite Z.div_0_l, (Z.div_small (se - 1)) by lia. lia.
  - replace (n + 1 + se - 1) with ((q + 1) * se + r) by lia.
    replace (n + se - 1) with ((q + 1) * se + (r - 1)) by lia.
    rewrite !Z.div_add_l by lia.
    rewrite !Z.div_small by lia. lia.
Qed.

Lemma length_sampled {A} se (fs : list A) :
  1 <= se →
  Z.of_nat (length (sampled_from se 0 fs))
  = (Z.of_nat (length fs) + se - 1) `div` se.
Proof.
  intros Hse. induction fs as [|f fs IH] using rev_ind.
  - simpl. rewrite Z.div_small; lia.
  - rewrite sampled_from_snoc, !length_app, !Nat2Z.inj_add, IH, Z.add_0_l.
    change (Z.of_nat (length [f])) with 1.
    rewrite (ceil_div_succ (Z.of_nat (length fs)) se) by lia.
    by case_match.
Qed.

(** [(n + se - 1) div se] is the ceiling of [n / se]. *)
Lemma ceil_div_bounds n se :
  1 <= se →
  let l := (n + se - 1) `div` se in se * (l - 1) < n ∧ n <= se * l.
Proof.
  intros Hse l.
  pose proof (Z.div_mod (n + se - 1) se ltac:(lia)) as Hdm.
  pose proof (Z.mod_pos_bound (n + se - 1) se ltac:(lia)) as Hb.
  subst l. nia.
Qed.

Lemma run_conf_count v fs :
  accepted_conf_count (run v fs)
  = Z.of_nat (length (accepted_confidences (width v * height v) fs)).
Proof.
  induction fs as [|boxes fs IH] using rev_ind; [done|].
  rewrite run_snoc, process_frame_conf_count, IH.
  unfold accepted_confidences. rewrite map_app, concat_app, length_app.
  simpl. rewrite app_nil_r. lia.
Qed.

Lemma run_conf_sum v fs :
  (accepted_conf_sum (run v fs)
   == Qsum (accepted_confidences (width v * height v) fs))%Q.
Proof.
  induction fs as [|boxes fs IH] using rev_ind; [done|].
  rewrite run_snoc, process_frame_conf_sum, IH.
  unfold accepted_confidences. rewrite map_app, concat_app, Qsum_app.
  simpl. by rewrite app_nil_r.
Qed.

(** C4.  A run over at least one frame returns a record whose density is
    min(100, 100 * M / 45), M being the largest per-frame total of filtered
    detections (an upper bound of all frame totals that one frame attains)
    and 45 = 15 * 3 the capacity, and whose total_vehicles is the sum of the
    four per-class unique counts. *)
Theorem result_density_and_total v :
  cap_opened v = true → frames v ≠ [] →
  ∃ r, process_video v true = inr r
    ∧ (let M := max_concurrent (width v * height v) (frames v) in
       (density r == Qmin 100 (100 * inject_Z M / 45))%Q
       ∧ (∀ boxes, boxes ∈ frames v →
            frame_total (width v * height v) boxes <= M)
       ∧ (∃ boxes, boxes ∈ frames v
            ∧ frame_total (width v * height v) boxes = M))
    ∧ MAX_VEHICLES_PER_LANE * NUM_LANES = 45
    ∧ total_vehicles r
      = vehicle_counts r car + vehicle_counts r truck
        + vehicle_counts r bus + vehicle_counts r motorcycle
    ∧ (∀ c, vehicle_counts r c = unique_counts (run v (frames v)) c).
Proof.
  intros Ho Hf. eexists. split; [by apply process_video_ok|].
  split; [|split; [done|split; [|done]]].
  - cbv zeta. split; [|split].
    + cbn [summarize density]. rewrite run_max.
      apply (density_pct_eq (max_concurrent _ _)).
    + intros boxes. apply max_concurrent_upper.
    + by apply max_concurrent_attained.
  - cbn [summarize total_vehicles vehicle_counts]. lia.
Qed.

(** C5.  A run over N >= 1 frames sampled every
    [sample_every = max(1, fps // 5)] frames returns a density timeline of
    exactly ceil(N / sample_every) entries; the entries are, in order,
    min(100, 100 * frame_total / 45) for the frames whose index is a
    multiple of [sample_every], and each lies in [0, 100]. *)
Theorem density_timeline v :
  cap_opened v = true → frames v ≠ [] →
  ∃ r, process_video v true = inr r
    ∧ (let se := sample_every_of (fps v) in
       let N := Z.of_nat (length (frames v)) in
       let L := Z.of_nat (length (r_density_series r)) in
       se = Z.max 1 (fps v `div` 5)
       ∧ L = (N + se - 1) `div` se
       ∧ se * (L - 1) < N ∧ N <= se * L
       ∧ Forall2
           (λ e boxes,
              (e == Qmin 100
                      (100 * inject_Z (frame_total (width v * height v) boxes)
                       / 45))%Q)
           (r_density_series r) (sampled_from se 0 (frames v))
       ∧ Forall (λ e, (0 <= e)%Q ∧ (e <= 100)%Q) (r_density_series r)).
Proof.
  intros Ho Hf. eexists. split; [by apply process_video_ok|].
  cbv zeta. cbn [summarize r_density_series]. rewrite run_series.
  pose proof (sample_every_pos (fps v)) as Hse.
  rewrite length_map, length_sampled by done.
  split; [done|]. split; [done|].
  split; [by apply ceil_div_bounds|]. split; [by apply ceil_div_bounds|].
  split.
  - apply Forall2_fmap_l, Forall_Forall2_diag, Forall_forall.
    intros boxes _. apply density_pct_eq.
  - apply Forall_fmap, Forall_forall. intros boxes _.
    apply density_pct_range, frame_total_nonneg.
Qed.

(** C9.  The returned average confidence is the sum of the confidences of
    all accepted detections of the run divided by their number, and 0 when
    there is none; low_confidence is true exactly when that average is
    below 0.55. *)
Theorem result_confidence v :
  cap_opened v = true → frames v ≠ [] →
  ∃ r, process_video v true = inr r
    ∧ (let confs := accepted_confidences (width v * height v) (frames v) in
       (confs ≠ [] →
        (avg_confidence r == Qsum confs / inject_Z (Z.of_nat (length confs)))%Q)
       ∧ (confs = [] → avg_confidence r = 0%Q)
       ∧ (low_confidence r = true ↔ (avg_confidence r < 55 # 100)%Q)).
Proof.
  intros Ho Hf. eexists. split; [by apply process_video_ok|].
  cbv zeta. cbn [summarize avg_confidence low_confidence].
  rewrite run_conf_count. split; [|split].
  - intros Hne. destruct (Z.eqb_spec (Z.of_nat (length
      (accepted_confidences (width v * height v) (frames v)))) 0) as [E|E].
    + destruct (accepted_confidences _ _); [done|simpl in E; lia].
    + by rewrite run_conf_sum.
  - by intros ->.
  - apply Qltb_true.
Qed.

(** ** The greedy matcher *)

Lemma best_match_inv tbox all used dets j0 best_j best_iou :
  drop j0 all = dets →
  scan_inv tbox all used j0 best_j best_iou →
  let r := best_match tbox dets j0 used best_j best_iou in
  scan_inv tbox all used (length all) r.1 r.2.
Proof.
  revert j0 best_j best_iou.
  induction dets as [|[dbox dconf] dets IH]; intros j0 best_j best_iou Hd Hinv.
  - simpl. destruct Hinv as [Hub Hbest].
    assert (length all ≤ j0)%nat as Hlen.
    { apply drop_nil_inv in Hd. lia. }
    split.
    + intros k q' Hk Hu Hq. apply (Hub k q'); [|done..].
      unfold iou_of in Hq. destruct (all !! k) eqn:E; [|done].
      apply lookup_lt_Some in E. lia.
    + destruct best_j as [j|]; [|done].
      destruct Hbest as (Hj & ? & Hq & ? & ?). repeat split; try done.
      unfold iou_of in Hq. destruct (all !! j) eqn:E; [|done].
      by apply lookup_lt_Some in E.
  - assert (all !! j0 = Some (dbox, dconf)) as Hj0.
    { rewrite <- (Nat.add_0_r j0), <- lookup_drop, Hd. done. }
    assert (drop (S j0) all = dets) as Hd'.
    { replace (S j0) with (j0 + 1)%nat by lia.
      rewrite <- drop_drop, Hd. done. }
    assert (iou_of tbox all j0 = Some (_compute_iou tbox dbox)) as Hiou.
    { unfold iou_of. by rewrite Hj0. }
    simpl. destruct Hinv as [Hub Hbest].
    destruct (decide (j0 ∈ used)) as [Hin|Hnin].
    + apply IH; [done|]. split.
      * intros k q' Hk Hu Hq. destruct (decide (k = j0)) as [->|]; [done|].
        apply (Hub k q'); [lia|done..].
      * destruct best_j as [j|]; [|done].
        destruct Hbest as (? & ? & ? & ? & ?). repeat split; try done. lia.
    + destruct (Qltb best_iou (_compute_iou tbox dbox)) eqn:Elt.
      * apply Qltb_true in Elt. apply IH; [done|].
        assert (∀ k q', (k < j0)%nat → k ∉ used
                  → iou_of tbox all k = Some q'
                  → (q' < _compute_iou tbox dbox)%Q) as Hlt.
        { intros k q' Hk Hu Hq. eapply Qle_lt_trans; [|exact Elt]. eauto. }
        split.
        -- intros k q' Hk Hu Hq. destruct (decide (k = j0)) as [->|].
           ++ rewrite Hiou in Hq. injection Hq as <-. apply Qle_refl.
           ++ apply Qlt_le_weak, (Hlt k); [lia|done..].
        -- repeat split; [lia|done..| |done].
           destruct best_j as [j|].
           ++ destruct Hbest as (_ & _ & _ & Hpos & _).
              by eapply Qlt_trans.
           ++ by rewrite Hbest in Elt.
      * apply Qltb_false in Elt. apply IH; [done|]. split.
        -- intros k q' Hk Hu Hq. destruct (decide (k = j0)) as [->|].
           ++ rewrite Hiou in Hq. by injection Hq as <-.
           ++ apply (Hub k q'); [lia|done..].
        -- destruct best_j as [j|]; [|done].
           destruct Hbest as (? & ? & ? & ? & ?). repeat split; try done. lia.
Qed.

Lemma best_match_scan tbox dets used :
  let r := best_match tbox dets 0 used None 0%Q in
  scan_inv tbox dets used (length dets) r.1 r.2.
Proof.
  apply best_match_inv; [done|]. split; [|done]. intros k q' Hk. lia.
Qed.

Lemma iou_of_lt tbox dets k q : iou_of tbox dets k = Some q → (k < length dets)%nat.
Proof.
  unfold iou_of. destruct (dets !! k) eqn:E; [|done].
  intros _. by apply lookup_lt_Some in E.
Qed.

Lemma assigned_Some dets t used j :
  assigned dets t used = Some j →
  ∃ q, first_best (bbox t) dets used j q ∧ (iou_thresh <= q)%Q ∧ (0 < q)%Q.
Proof.
  unfold assigned. pose proof (best_match_scan (bbox t) dets used) as Hs.
  destruct (best_match _ _ _ _ _ _) as [[bj|] bi]; [|done].
  destruct (Qle_bool iou_thresh bi) eqn:Ele; [|done].
  intros [= ->]. apply Qle_bool_iff in Ele.
  destruct Hs as (Hub & _ & Hu & Hq & Hpos & Hlt). simpl in *.
  exists bi. repeat split; try done.
  intros k q' Hk Hq'. apply (Hub k q'); [|done..]. by eapply iou_of_lt.
Qed.

Lemma assigned_None dets t used j q :
  assigned dets t used = None →
  first_best (bbox t) dets used j q →
  (q < iou_thresh)%Q ∨ (q <= 0)%Q.
Proof.
  unfold assigned. pose proof (best_match_scan (bbox t) dets used) as Hs.
  intros Ha (Hu & Hq & _).
  destruct (best_match _ _ _ _ _ _) as [[bj|] bi]; simpl in Hs.
  - destruct (Qle_bool iou_thresh bi) eqn:Ele; [done|].
    left. destruct Hs as [Hub _].
    eapply Qle_lt_trans; [apply (Hub j q); [by eapply iou_of_lt|done..]|].
    apply Qnot_le_lt. intros Hle. apply Qle_bool_iff in Hle. congruence.
  - right. destruct Hs as [Hub ->].
    apply (Hub j q); [by eapply iou_of_lt|done..].
Qed.

(** [dets[best_j]] is always in range. *)
Lemma assigned_lookup dets t used j :
  assigned dets t used = Some j → ∃ dbox dconf, dets !! j = Some (dbox, dconf).
Proof.
  intros (q & (_ & Hq & _) & _)%assigned_Some.
  unfold iou_of in Hq. destruct (dets !! j) as [[dbox dconf]|]; [eauto|done].
Qed.

Lemma greedy_match_run frame_idx dets ts used uc :
  let r := greedy_match frame_idx dets ts used uc in
  matched_run frame_idx dets used uc ts r.1.1 r.1.2 r.2.
Proof.
  revert used uc. induction ts as [|t ts IH]; intros used uc; simpl.
  - constructor.
  - unfold match_track.
    destruct (assigned dets t used) as [j|] eqn:Ea.
    + destruct (assigned_lookup _ _ _ _ Ea) as (dbox & dconf & Hj).
      rewrite Hj.
      destruct (hit frame_idx dbox t uc) as [t' uc'] eqn:Eh.
      specialize (IH ({[j]} ∪ used) uc').
      destruct (greedy_match _ _ _ _ _) as [[ts' used'] uc''].
      replace t' with (hit frame_idx dbox t uc).1 by by rewrite Eh.
      econstructor; [done..|]. by rewrite Eh.
    + specialize (IH used uc).
      destruct (greedy_match _ _ _ _ _) as [[ts' used'] uc''].
      by constructor.
Qed.

Lemma hit_fst frame_idx dbox t uc :
  (hit frame_idx dbox t uc).1
  = {| id := id t; bbox := dbox; last_seen := frame_idx; hits := hits t + 1;
       counted := counted t || (CONFIRM_HITS <=? hits t + 1) |}.
Proof.
  unfold hit; simpl.
  by destruct (counted t), (CONFIRM_HITS <=? hits t + 1).
Qed.

Lemma hit_snd frame_idx dbox t uc :
  (hit frame_idx dbox t uc).2
  = uc + (if negb (counted t) && (CONFIRM_HITS <=? hits t + 1) then 1 else 0).
Proof.
  unfold hit; simpl.
  destruct (counted t), (CONFIRM_HITS <=? hits t + 1); simpl; lia.
Qed.

Lemma hit_updated frame_idx dbox t uc :
  updated frame_idx dbox t (hit frame_idx dbox t uc).1.
Proof. by rewrite hit_fst. Qed.

Lemma hit_ok frame_idx dbox t uc :
  track_ok t → track_ok (hit frame_idx dbox t uc).1.
Proof.
  intros [Hh Hc]. rewrite hit_fst. unfold track_ok in *. simpl.
  split; [lia|]. rewrite orb_true_iff, Z.leb_le, Hc. lia.
Qed.

Lemma hit_transition frame_idx dbox t uc :
  track_ok t → track_transition t (hit frame_idx dbox t uc).1.
Proof.
  intros [Hh Hc]. rewrite hit_fst. unfold track_transition, confirms. simpl.
  rewrite !orb_true_iff, !Z.leb_le.
  split; [done|]. split; [by right|]. split; [|split].
  - intros [Hlt Hge]. split; [|split].
    + destruct (counted t); [|done]. destruct Hc as [Hc _].
      specialize (Hc eq_refl). lia.
    + by right.
    + unfold CONFIRM_HITS in *. lia.
  - intros [Ht|Hge]; [by left|].
    destruct (counted t); [by left|right].
    split; [|done]. apply Z.lt_nge. intros Hle. by apply Hc in Hle.
  - intros Ht. split; [by left|]. apply Hc in Ht. lia.
Qed.

Lemma hit_count frame_idx dbox t uc :
  track_ok t →
  (hit frame_idx dbox t uc).2
  = uc + (if decide (confirms t (hit frame_idx dbox t uc).1) then 1 else 0).
Proof.
  intros [Hh Hc]. rewrite hit_snd, hit_fst. unfold confirms. simpl.
  destruct (Z.leb_spec CONFIRM_HITS (hits t + 1)) as [Hge|Hlt];
    destruct (counted t) eqn:Ec; simpl; case_decide as Hd; lia.
Qed.

Lemma skip_transition t : track_ok t → track_transition t t.
Proof.
  intros [Hh Hc]. unfold track_transition, confirms.
  split; [done|]. split; [by left|]. split; [lia|]. split; [by left|].
  intros Ht. split; [done|]. lia.
Qed.

Lemma confirmations_cons o n old new :
  confirmations (o :: old) (n :: new)
  = ((if decide (confirms o n) then 1 else 0) + confirmations old new)%nat.
Proof.
  unfold confirmations. simpl. rewrite filter_cons. simpl.
  by case_decide.
Qed.

(** Over a run of the matcher the stored tracks stay well formed, change as
    [track_transition] allows, and the unique count grows by the number of
    tracks confirmed. *)
Lemma matched_run_transition frame_idx dets used uc ts ts' used' uc' :
  matched_run frame_idx dets used uc ts ts' used' uc' →
  Forall track_ok ts →
  Forall track_ok ts'
  ∧ Forall2 track_transition ts ts'
  ∧ uc' = uc + Z.of_nat (confirmations ts ts').
Proof.
  induction 1 as [used uc|used uc t ts ts' used' uc' j dbox dconf Ha Hj Hrun IH
                  |used uc t ts ts' used' uc' Ha Hrun IH]; intros Hok.
  - split; [done|]. split; [constructor|]. unfold confirmations. simpl. lia.
  - apply Forall_cons_1 in Hok as [Ht Hok].
    destruct (IH Hok) as (Hok' & Htr & ->).
    split; [constructor; [by apply hit_ok|done]|].
    split; [constructor; [by apply hit_transition|done]|].
    rewrite confirmations_cons, (hit_count _ _ _ _ Ht).
    case_decide; lia.
  - apply Forall_cons_1 in Hok as [Ht Hok].
    destruct (IH Hok) as (Hok' & Htr & ->).
    split; [by constructor|].
    split; [constructor; [by apply skip_transition|done]|].
    rewrite confirmations_cons.
    case_decide as Hc; [|lia]. destruct Ht, Hc. lia.
Qed.

Lemma uncounted_cons t ts :
  uncounted (t :: ts) = (if counted t then 0 else 1) + uncounted ts.
Proof.
  unfold uncounted. rewrite filter_cons.
  destruct (counted t); case_decide; simpl; try done; lia.
Qed.

Lemma uncounted_nonneg ts : 0 <= uncounted ts.
Proof. unfold uncounted. lia. Qed.

Lemma uncounted_app ts1 ts2 : uncounted (ts1 ++ ts2) = uncounted ts1 + uncounted ts2.
Proof. unfold uncounted. rewrite filter_app, length_app. lia. Qed.

(** Every confirmation moves one track from the uncounted ones to the unique
    count; the count never decreases. *)
Lemma matched_run_uncounted frame_idx dets used uc ts ts' used' uc' :
  matched_run frame_idx dets used uc ts ts' used' uc' →
  uc' + uncounted ts' = uc + uncounted ts ∧ uc <= uc'.
Proof.
  induction 1 as [used uc|used uc t ts ts' used' uc' j dbox dconf Ha Hj Hrun IH
                  |used uc t ts ts' used' uc' Ha Hrun IH].
  - lia.
  - rewrite !uncounted_cons. rewrite hit_snd in IH. rewrite hit_fst. simpl.
    destruct (counted t), (CONFIRM_HITS <=? hits t + 1); simpl in *; lia.
  - rewrite !uncounted_cons. lia.
Qed.

Lemma matched_run_ids frame_idx dets used uc ts ts' used' uc' :
  matched_run frame_idx dets used uc ts ts' used' uc' →
  map id ts' = map id ts.
Proof.
  induction 1; simpl; [done| |by f_equal].
  rewrite hit_fst. simpl. by f_equal.
Qed.

Lemma matched_run_length frame_idx dets used uc ts ts' used' uc' :
  matched_run frame_idx dets used uc ts ts' used' uc' →
  length ts' = length ts.
Proof.
  intros H%matched_run_ids. by rewrite <- (length_map id ts'), H, length_map.
Qed.

(** The code's run of the matcher meets the greedy contract; no detection
    is assigned twice, and none that was already used. *)
Lemma matched_run_greedy frame_idx dets used uc ts ts' used' uc' :
  matched_run frame_idx dets used uc ts ts' used' uc' →
  ∃ log, greedy_spec frame_idx dets used ts ts' log
    ∧ NoDup (assigned_indices log)
    ∧ (∀ j, j ∈ assigned_indices log → j ∉ used)
    ∧ used' = list_to_set (assigned_indices log) ∪ used.
Proof.
  induction 1 as [used uc|used uc t ts ts' used' uc' j dbox dconf Ha Hj Hrun IH
                  |used uc t ts ts' used' uc' Ha Hrun IH].
  - exists []. split; [constructor|]. split; [constructor|]. split.
    + by intros j ?%elem_of_nil.
    + simpl. by rewrite union_empty_l_L.
  - destruct IH as (log & Hspec & Hnd & Hfresh & ->).
    destruct (assigned_Some _ _ _ _ Ha) as (q & Hbest & Hthr & _).
    exists (Some j :: log). split; [|split; [|split]].
    + econstructor; [done..|apply hit_updated|done].
    + simpl. constructor; [|done]. intros Hin%Hfresh.
      apply Hin, elem_of_union. left. by apply elem_of_singleton.
    + simpl. intros k [->|Hin%Hfresh]%elem_of_cons; [apply Hbest|].
      intros Hk. apply Hin, elem_of_union. by right.
    + simpl.
      by rewrite (comm_L (∪) {[j]} (list_to_set (assigned_indices log))),
        (assoc_L (∪)).
  - destruct IH as (log & Hspec & Hnd & Hfresh & ->).
    exists (None :: log). split; [|done].
    constructor; [|done]. intros j q. by apply assigned_None.
Qed.

(** ** Track creation and the per-class update *)

Lemma create_tracks_spec frame_idx dets j used ts next_id :
  create_tracks frame_idx dets j used ts next_id
  = (ts ++ new_tracks frame_idx next_id (unmatched dets j used),
     next_id + Z.of_nat (length (unmatched dets j used))).
Proof.
  revert j ts next_id.
  induction dets as [|[dbox dconf] dets IH]; intros j ts next_id; simpl.
  - rewrite app_nil_r. f_equal. lia.
  - destruct (decide (j ∈ used)); rewrite IH; [done|].
    simpl. rewrite <- app_assoc. simpl. f_equal. lia.
Qed.

Lemma new_tracks_props frame_idx next_id boxes t :
  t ∈ new_tracks frame_idx next_id boxes →
  next_id <= id t < next_id + Z.of_nat (length boxes)
  ∧ bbox t ∈ boxes ∧ last_seen t = frame_idx ∧ hits t = 1 ∧ counted t = false.
Proof.
  revert next_id. induction boxes as [|b boxes IH]; intros next_id; simpl.
  - by intros ?%elem_of_nil.
  - intros [->|Hin]%elem_of_cons; simpl.
    + split; [lia|]. split; [apply list_elem_of_here|done].
    + destruct (IH _ Hin) as (? & ? & ? & ? & ?).
      split; [lia|]. split; [by apply list_elem_of_further|done].
Qed.

Lemma new_tracks_ids frame_idx next_id boxes :
  map id (new_tracks frame_idx next_id boxes)
  = seqZ next_id (Z.of_nat (length boxes)).
Proof.
  revert next_id. induction boxes as [|b boxes IH]; intros next_id.
  - done.
  - simpl length. rewrite Nat2Z.inj_succ, seqZ_cons by lia.
    simpl. rewrite IH. f_equal. f_equal; lia.
Qed.

Lemma new_tracks_lookup frame_idx next_id boxes k b :
  boxes !! k = Some b →
  new_tracks frame_idx next_id boxes !! k
  = Some {| id := next_id + Z.of_nat k; bbox := b; last_seen := frame_idx;
            hits := 1; counted := false |}.
Proof.
  revert next_id k. induction boxes as [|b' boxes IH]; intros next_id k; [done|].
  destruct k as [|k]; simpl.
  - intros [= ->]. do 2 f_equal. lia.
  - intros Hk. rewrite (IH _ _ Hk). do 2 f_equal. lia.
Qed.

Lemma new_tracks_uncounted frame_idx next_id boxes :
  uncounted (new_tracks frame_idx next_id boxes) = Z.of_nat (length boxes).
Proof.
  revert next_id. induction boxes as [|b boxes IH]; intros next_id; [done|].
  simpl new_tracks. rewrite uncounted_cons, IH. simpl. lia.
Qed.

Lemma unmatched_elem dets j0 used b :
  b ∈ unmatched dets j0 used
  ↔ ∃ k dconf, dets !! k = Some (b, dconf) ∧ (j0 + k)%nat ∉ used.
Proof.
  revert j0. induction dets as [|[dbox dconf] dets IH]; intros j0; simpl.
  - split; [by intros ?%elem_of_nil|]. by intros (k & ? & ? & _).
  - destruct (decide (j0 ∈ used)) as [Hin|Hnin].
    + rewrite IH. split.
      * intros (k & c & Hk & Hu). exists (S k), c. split; [done|].
        by replace (j0 + S k)%nat with (S j0 + k)%nat by lia.
      * intros ([|k] & c & Hk & Hu); simpl in Hk.
        -- by rewrite Nat.add_0_r in Hu.
        -- exists k, c. split; [done|].
           by replace (S j0 + k)%nat with (j0 + S k)%nat by lia.
    + rewrite elem_of_cons, IH. split.
      * intros [->|(k & c & Hk & Hu)].
        -- exists 0%nat, dconf. split; [done|]. by rewrite Nat.add_0_r.
        -- exists (S k), c. split; [done|].
           by replace (j0 + S k)%nat with (S j0 + k)%nat by lia.
      * intros ([|k] & c & Hk & Hu); simpl in Hk.
        -- left. congruence.
        -- right. exists k, c. split; [done|].
           by replace (S j0 + k)%nat with (j0 + S k)%nat by lia.
Qed.

(** The per-class update, in one equation: the surviving tracks are matched
    in place and the unmatched detections are appended as new tracks. *)
Lemma update_class_spec frame_idx dets ts next_id uc :
  ∃ matched used' uc',
    matched_run frame_idx dets ∅ uc (age_out frame_idx ts) matched used' uc'
    ∧ update_class frame_idx dets ts next_id uc
      = (matched ++ new_tracks frame_idx next_id (unmatched dets 0 used'),
         next_id + Z.of_nat (length (unmatched dets 0 used')),
         uc').
Proof.
  unfold update_class.
  pose proof (greedy_match_run frame_idx dets (age_out frame_idx ts) ∅ uc) as Hrun.
  destruct (greedy_match _ _ _ _ _) as [[matched used'] uc'].
  exists matched, used', uc'. split; [done|].
  cbn [fst snd]. by rewrite create_tracks_spec.
Qed.

Lemma age_out_elem frame_idx ts t :
  t ∈ age_out frame_idx ts ↔ frame_idx - last_seen t <= TRACK_TIMEOUT ∧ t ∈ ts.
Proof. unfold age_out. by rewrite list_elem_of_filter. Qed.

Lemma uncounted_age_out frame_idx ts :
  uncounted (age_out frame_idx ts) <= uncounted ts.
Proof.
  induction ts as [|t ts IH]; [done|].
  unfold age_out in *. rewrite filter_cons. case_decide.
  - rewrite !uncounted_cons. lia.
  - rewrite uncounted_cons. destruct (counted t); lia.
Qed.

Lemma NoDup_map_filter {A B} (f : A → B) (P : A → Prop)
    `{!∀ x, Decision (P x)} (l : list A) :
  NoDup (map f l) → NoDup (map f (filter P l)).
Proof.
  induction l as [|x l IH]; [done|]. simpl.
  intros [Hx Hnd]%NoDup_cons. rewrite filter_cons. case_decide; [|auto].
  simpl. apply NoDup_cons. split; [|auto].
  intros (y & Hy & Hin)%list_elem_of_fmap. apply Hx.
  apply list_elem_of_fmap. exists y. split; [done|].
  by apply list_elem_of_filter in Hin as [_ ?].
Qed.

(** The class invariant is kept by every per-class update. *)
Lemma update_class_inv frame_idx dets ts next_id uc :
  class_inv ts next_id uc →
  let r := update_class frame_idx dets ts next_id uc in
  class_inv r.1.1 r.1.2 r.2 ∧ next_id <= r.1.2 ∧ uc <= r.2.
Proof.
  intros (Hok & Hid & Hnd & Huc & Hcnt).
  destruct (update_class_spec frame_idx dets ts next_id uc)
    as (matched & used' & uc' & Hrun & ->).
  cbn [fst snd].
  set (boxes := unmatched dets 0 used').
  assert (Forall track_ok (age_out frame_idx ts)) as Hok1.
  { apply Forall_forall. intros t [_ Ht]%age_out_elem.
    by apply (proj1 (Forall_forall _ _) Hok). }
  destruct (matched_run_transition _ _ _ _ _ _ _ _ Hrun Hok1) as (Hok2 & _ & _).
  destruct (matched_run_uncounted _ _ _ _ _ _ _ _ Hrun) as (Hcons & Hmono).
  pose proof (matched_run_ids _ _ _ _ _ _ _ _ Hrun) as Hids.
  pose proof (uncounted_age_out frame_idx ts) as Hage.
  assert (Forall (λ t, 1 <= id t < next_id) matched) as Hid2.
  { apply Forall_forall. intros t Ht.
    assert (id t ∈ map id (age_out frame_idx ts)) as Hin.
    { rewrite <- Hids. apply list_elem_of_fmap. eauto. }
    apply list_elem_of_fmap in Hin as (t0 & -> & [_ Ht0]%age_out_elem).
    by apply (proj1 (Forall_forall _ _) Hid). }
  split; [|lia]. split; [|split; [|split; [|split]]].
  - apply Forall_app. split; [done|]. apply Forall_forall.
    intros t (_ & _ & _ & Hh & Hc)%new_tracks_props.
    unfold track_ok, CONFIRM_HITS. rewrite Hh, Hc. split; [lia|]. split; [done|lia].
  - apply Forall_app. split.
    + eapply Forall_impl; [exact Hid2|]. simpl. lia.
    + apply Forall_forall. intros t (Hr & _)%new_tracks_props.
      pose proof (uncounted_nonneg ts). fold boxes. lia.
  - rewrite map_app, Hids, new_tracks_ids. apply NoDup_app. split; [|split].
    + unfold age_out. by apply NoDup_map_filter.
    + intros i Hi Hi'. rewrite <- Hids in Hi.
      apply list_elem_of_fmap in Hi as (t & -> & Ht).
      apply (proj1 (Forall_forall _ _) Hid2) in Ht.
      apply elem_of_seqZ in Hi'. lia.
    + apply NoDup_seqZ.
  - lia.
  - rewrite uncounted_app, new_tracks_uncounted. fold boxes. lia.
Qed.

Lemma run_class_inv v fs c :
  class_inv (tracks (run v fs) c) (next_track_id (run v fs) c)
    (unique_counts (run v fs) c).
Proof.
  induction fs as [|boxes fs IH] using rev_ind.
  - unfold class_inv, uncounted. simpl.
    repeat split; try constructor; lia.
  - rewrite run_snoc.
    pose proof (process_frame_class (width v * height v)
                  (sample_every_of (fps v)) (run v fs) boxes c) as Hc.
    cbv zeta in Hc.
    pose proof (update_class_inv (frame_idx (run v fs))
                  (detections_by_class (width v * height v) boxes c) _ _ _ IH)
      as [Hinv _].
    rewrite <- Hc in Hinv. exact Hinv.
Qed.

(** The state after one more frame, class by class. *)
Lemma run_snoc_class v fs boxes c :
  (tracks (run v (fs ++ [boxes])) c,
   next_track_id (run v (fs ++ [boxes])) c,
   unique_counts (run v (fs ++ [boxes])) c)
  = update_class (frame_idx (run v fs))
      (detections_by_class (width v * height v) boxes c)
      (tracks (run v fs) c) (next_track_id (run v fs) c)
      (unique_counts (run v fs) c).
Proof. rewrite run_snoc. apply process_frame_class. Qed.

Lemma run_mono v fs fs' c :
  unique_counts (run v fs) c <= unique_counts (run v (fs ++ fs')) c
  ∧ next_track_id (run v fs) c <= next_track_id (run v (fs ++ fs')) c.
Proof.
  induction fs' as [|boxes fs' IH] using rev_ind.
  - rewrite app_nil_r. lia.
  - rewrite app_assoc.
    pose proof (run_snoc_class v (fs ++ fs') boxes c) as Hc.
    pose proof (update_class_inv (frame_idx (run v (fs ++ fs')))
                  (detections_by_class (width v * height v) boxes c) _ _ _
                  (run_class_inv v (fs ++ fs') c)) as (_ & Hn & Hu).
    rewrite <- Hc in Hn, Hu. simpl in Hn, Hu. lia.
Qed.

(** C10.  At every frame boundary of a run, and for every class, the unique
    count is at most the number of tracks ever created for the class,
    [next_track_id - 1] with ids starting at 1, and both quantities never
    decrease as the run goes on. *)
Theorem unique_count_bounded v fs c :
  next_track_id init_state c = 1
  ∧ unique_counts (run v fs) c <= next_track_id (run v fs) c - 1
  ∧ (∀ fs',
       unique_counts (run v fs) c <= unique_counts (run v (fs ++ fs')) c
       ∧ next_track_id (run v fs) c <= next_track_id (run v (fs ++ fs')) c).
Proof.
  split; [done|]. split; [|intros fs'; apply run_mono].
  destruct (run_class_inv v fs c) as (_ & _ & _ & _ & Hcnt).
  pose proof (uncounted_nonneg (tracks (run v fs) c)). lia.
Qed.

(** C1.  In every frame of a run and for every class: each surviving track
    changes as [track_transition] says (a track whose hits reach the
    confirmation threshold, 3, for the first time had its counted flag
    false and gets it set; the flag is set at no other moment; a counted
    track stays counted and is never confirmed again); the class's unique
    count grows by exactly the number of tracks confirmed in the frame, so
    it never decreases; the tracks created in the frame start with one hit,
    not counted; and a single hit of a surviving track adds 1 to the count
    exactly when it confirms the track, and nothing otherwise. *)
Theorem unique_count_transitions v fs boxes c :
  let st := run v fs in
  let st' := run v (fs ++ [boxes]) in
  let old := age_out (frame_idx st) (tracks st c) in
  let new := take (length old) (tracks st' c) in
  CONFIRM_HITS = 3
  ∧ Forall2 track_transition old new
  ∧ unique_counts st' c = unique_counts st c + Z.of_nat (confirmations old new)
  ∧ unique_counts st c <= unique_counts st' c
  ∧ Forall (λ t, hits t = 1 ∧ counted t = false)
      (drop (length old) (tracks st' c))
  ∧ (∀ t dbox uc, t ∈ old →
       (hit (frame_idx st) dbox t uc).2
       = uc + (if decide (confirms t (hit (frame_idx st) dbox t uc).1)
               then 1 else 0)).
Proof.
  cbv zeta. pose proof (run_snoc_class v fs boxes c) as Hc.
  destruct (update_class_spec (frame_idx (run v fs))
              (detections_by_class (width v * height v) boxes c)
              (tracks (run v fs) c) (next_track_id (run v fs) c)
              (unique_counts (run v fs) c))
    as (matched & used' & uc' & Hrun & Hup).
  rewrite Hup in Hc. injection Hc as -> _ ->.
  destruct (run_class_inv v fs c) as (Hok & _).
  assert (Forall track_ok (age_out (frame_idx (run v fs)) (tracks (run v fs) c)))
    as Hok1.
  { apply Forall_forall. intros t [_ Ht]%age_out_elem.
    by apply (proj1 (Forall_forall _ _) Hok). }
  destruct (matched_run_transition _ _ _ _ _ _ _ _ Hrun Hok1) as (_ & Htr & Huc).
  pose proof (matched_run_length _ _ _ _ _ _ _ _ Hrun) as Hlen.
  rewrite <- Hlen, take_app_length, drop_app_length.
  split; [done|]. split; [done|]. split; [done|]. split; [lia|]. split.
  - apply Forall_forall. by intros t (_ & _ & _ & ? & ?)%new_tracks_props.
  - intros t dbox uc Ht. apply hit_count.
    by apply (proj1 (Forall_forall _ _) Hok1).
Qed.

(** C2.  In each frame and for each class the matcher meets the greedy
    contract [greedy_spec] on the surviving tracks, taken in store order and
    starting with no detection used: a track is assigned the first-found
    maximum-IoU detection among those not yet used, only when that IoU is at
    least the match threshold, and is then updated (box, last-seen, one more
    hit) and the detection marked used; no detection is assigned twice; the
    detections left unassigned are the ones turned into new tracks. *)
Theorem greedy_matching fa se st boxes c :
  let dets := detections_by_class fa boxes c in
  let fresh := age_out (frame_idx st) (tracks st c) in
  let st' := process_frame fa se st boxes in
  ∃ log,
    greedy_spec (frame_idx st) dets ∅ fresh
      (take (length fresh) (tracks st' c)) log
    ∧ NoDup (assigned_indices log)
    ∧ drop (length fresh) (tracks st' c)
      = new_tracks (frame_idx st) (next_track_id st c)
          (unmatched dets 0 (list_to_set (assigned_indices log))).
Proof.
  cbv zeta. pose proof (process_frame_class fa se st boxes c) as Hc.
  cbv zeta in Hc.
  destruct (update_class_spec (frame_idx st) (detections_by_class fa boxes c)
              (tracks st c) (next_track_id st c) (unique_counts st c))
    as (matched & used' & uc' & Hrun & Hup).
  rewrite Hup in Hc. apply (f_equal (λ x, x.1.1)) in Hc. cbn [fst] in Hc.
  rewrite Hc.
  pose proof (matched_run_length _ _ _ _ _ _ _ _ Hrun) as Hlen.
  destruct (matched_run_greedy _ _ _ _ _ _ _ _ Hrun)
    as (log & Hspec & Hnd & _ & ->).
  exists log. rewrite <- Hlen, take_app_length, drop_app_length.
  split; [done|]. split; [done|]. by rewrite union_empty_r_L.
Qed.

(** ** Expiry *)

Lemma NoDup_map_eq {A B} (f : A → B) (l : list A) x y :
  NoDup (map f l) → x ∈ l → y ∈ l → f x = f y → x = y.
Proof.
  induction l as [|z l IH]; [by intros _ ?%elem_of_nil|]. simpl.
  intros [Hz Hnd]%NoDup_cons [->|Hx]%elem_of_cons [->|Hy]%elem_of_cons Hf;
    [done| | |by apply IH].
  - destruct Hz. rewrite Hf. apply list_elem_of_fmap. eauto.
  - destruct Hz. rewrite <- Hf. apply list_elem_of_fmap. eauto.
Qed.

Lemma age_out_without frame_idx ts t :
  TRACK_TIMEOUT < frame_idx - last_seen t →
  age_out frame_idx (filter (λ x, x ≠ t) ts) = age_out frame_idx ts.
Proof.
  intros Hstale. unfold age_out. rewrite list_filter_filter.
  apply list_filter_iff. intros x. split; [by intros [? _]|].
  intros Hx. split; [done|]. intros ->. lia.
Qed.

(** The update of a class reads its store only through the surviving
    tracks. *)
Lemma update_class_without frame_idx dets ts next_id uc t :
  TRACK_TIMEOUT < frame_idx - last_seen t →
  update_class frame_idx dets (filter (λ x, x ≠ t) ts) next_id uc
  = update_class frame_idx dets ts next_id uc.
Proof. intros Hstale. unfold update_class. by rewrite age_out_without. Qed.

Lemma update_class_retired frame_idx dets ts next_id uc i :
  i < next_id →
  (∀ t, t ∈ age_out frame_idx ts → id t ≠ i) →
  let r := update_class frame_idx dets ts next_id uc in
  retired i r.1.1 r.1.2.
Proof.
  intros Hi Hfresh.
  destruct (update_class_spec frame_idx dets ts next_id uc)
    as (matched & used' & uc' & Hrun & ->).
  cbn [fst snd]. split; [lia|].
  pose proof (matched_run_ids _ _ _ _ _ _ _ _ Hrun) as Hids.
  intros t [Ht|Ht]%elem_of_app.
  - assert (id t ∈ map id (age_out frame_idx ts)) as Hin.
    { rewrite <- Hids. apply list_elem_of_fmap. eauto. }
    apply list_elem_of_fmap in Hin as (t0 & -> & Ht0). by apply Hfresh.
  - apply new_tracks_props in Ht as (? & _). lia.
Qed.

Lemma run_retired v fs fs' c i :
  retired i (tracks (run v fs) c) (next_track_id (run v fs) c) →
  retired i (tracks (run v (fs ++ fs')) c) (next_track_id (run v (fs ++ fs')) c).
Proof.
  intros Hr. induction fs' as [|boxes fs' IH] using rev_ind.
  - by rewrite app_nil_r.
  - rewrite app_assoc.
    pose proof (run_snoc_class v (fs ++ fs') boxes c) as Hc.
    destruct IH as [Hi Hids].
    pose proof (update_class_retired (frame_idx (run v (fs ++ fs')))
                  (detections_by_class (width v * height v) boxes c)
                  (tracks (run v (fs ++ fs')) c) _
                  (unique_counts (run v (fs ++ fs')) c) i Hi) as Hs.
    rewrite <- Hc in Hs. apply Hs.
    intros t [_ Ht]%age_out_elem. by apply Hids.
Qed.

Lemma unmatched_all dets j0 : unmatched dets j0 ∅ = map fst dets.
Proof.
  revert j0. induction dets as [|[dbox dconf] dets IH]; intros j0; [done|].
  simpl. by rewrite IH.
Qed.

Lemma matched_run_nil frame_idx dets used uc ts' used' uc' :
  matched_run frame_idx dets used uc [] ts' used' uc' →
  ts' = [] ∧ used' = used ∧ uc' = uc.
Proof. by inversion 1. Qed.

(** C7 (as amended).  A track whose age [frame_idx - last_seen] exceeds the
    timeout, 30, is not among the tracks the matcher sees in that frame, and
    the frame's update of the class is the one the store without it would
    get, so it affects no counter; its identity, smaller than every identity
    issued later, is carried by no track of the store in any later state, so
    it is never matched again.  The store after the frame is the surviving
    tracks, matched in place under the greedy contract, followed by one new
    track per detection assigned to no surviving track, with the next
    consecutive ids, one hit, not counted and last seen in this frame; when
    no track survives every detection, also one with the box of the expired
    track, becomes such a new track. *)
Theorem stale_track_expires v fs boxes c t :
  let st := run v fs in
  let st' := run v (fs ++ [boxes]) in
  let dets := detections_by_class (width v * height v) boxes c in
  let fresh := age_out (frame_idx st) (tracks st c) in
  t ∈ tracks st c →
  TRACK_TIMEOUT < frame_idx st - last_seen t →
  TRACK_TIMEOUT = 30
  ∧ (t ∉ fresh)
  ∧ update_class (frame_idx st) dets (filter (λ x, x ≠ t) (tracks st c))
      (next_track_id st c) (unique_counts st c)
    = (tracks st' c, next_track_id st' c, unique_counts st' c)
  ∧ (∀ fs' t', t' ∈ tracks (run v ((fs ++ [boxes]) ++ fs')) c → id t' ≠ id t)
  ∧ id t < next_track_id st c
  ∧ (∃ log (used : gset nat),
       greedy_spec (frame_idx st) dets ∅ fresh
         (take (length fresh) (tracks st' c)) log
       ∧ used = list_to_set (assigned_indices log)
       ∧ map id (take (length fresh) (tracks st' c)) = map id fresh
       ∧ drop (length fresh) (tracks st' c)
         = new_tracks (frame_idx st) (next_track_id st c)
             (unmatched dets 0 used)
       ∧ next_track_id st' c
         = next_track_id st c + Z.of_nat (length (unmatched dets 0 used))
       ∧ (∀ k b q, dets !! k = Some (b, q) → k ∉ used →
            ∃ t', t' ∈ drop (length fresh) (tracks st' c)
              ∧ bbox t' = b ∧ next_track_id st c <= id t'
              ∧ hits t' = 1 ∧ counted t' = false
              ∧ last_seen t' = frame_idx st)
       ∧ (fresh = [] → used = ∅))
  ∧ (fresh = [] →
     tracks st' c
     = new_tracks (frame_idx st) (next_track_id st c) (map fst dets)).
Proof.
  cbv zeta. intros Hin Hstale.
  pose proof (run_snoc_class v fs boxes c) as Hc.
  destruct (run_class_inv v fs c) as (_ & Hid & Hnd & _).
  assert (id t < next_track_id (run v fs) c) as Hlt.
  { by apply (proj1 (Forall_forall _ _) Hid) in Hin as [_ ?]. }
  assert (t ∉ age_out (frame_idx (run v fs)) (tracks (run v fs) c)) as Hgone.
  { intros [Hage _]%age_out_elem. lia. }
  split; [done|]. split; [done|].
  split; [by rewrite update_class_without|].
  split; [|split; [done|]].
  { intros fs' t' Ht'.
    refine (proj2 (run_retired v (fs ++ [boxes]) fs' c (id t) _) t' Ht').
    pose proof (update_class_retired (frame_idx (run v fs))
                  (detections_by_class (width v * height v) boxes c)
                  (tracks (run v fs) c) _
                  (unique_counts (run v fs) c) (id t) Hlt) as Hs.
    rewrite <- Hc in Hs. apply Hs.
    intros t0 Ht0 Heq. apply Hgone.
    assert (t0 = t) as <-; [|done].
    apply age_out_elem in Ht0 as Ht0'. destruct Ht0' as [_ Ht0'].
    by eapply (NoDup_map_eq id). }
  destruct (update_class_spec (frame_idx (run v fs))
              (detections_by_class (width v * height v) boxes c)
              (tracks (run v fs) c) (next_track_id (run v fs) c)
              (unique_counts (run v fs) c))
    as (matched & used' & uc' & Hrun & Hup).
  rewrite Hup in Hc. injection Hc as -> -> _.
  pose proof (matched_run_length _ _ _ _ _ _ _ _ Hrun) as Hlen.
  pose proof (matched_run_ids _ _ _ _ _ _ _ _ Hrun) as Hids.
  destruct (matched_run_greedy _ _ _ _ _ _ _ _ Hrun)
    as (log & Hspec & _ & _ & Hused).
  rewrite union_empty_r_L in Hused.
  rewrite <- Hlen, take_app_length, drop_app_length. split.
  - exists log, used'. split; [done|]. split; [done|].
    split; [done|]. split; [done|]. split; [done|]. split.
    + intros k b q Hk Hu.
      assert (b ∈ unmatched (detections_by_class (width v * height v) boxes c)
                    0 used') as Hb.
      { apply unmatched_elem. by exists k, q. }
      apply list_elem_of_lookup in Hb as [i Hi].
      eexists. split.
      * eapply list_elem_of_lookup_2. by apply new_tracks_lookup.
      * simpl. repeat split; try done. lia.
    + intros Hnil. rewrite Hnil in Hrun.
      by apply matched_run_nil in Hrun as (_ & -> & _).
  - intros Hnil. rewrite Hnil in Hrun.
    apply matched_run_nil in Hrun as (-> & -> & _).
    by rewrite unmatched_all.
Qed.

(** ** More on the geometry utility *)

Lemma inter_area_pos_iff a b : 0 < inter_area a b ↔ overlapping a b.
Proof.
  destruct a as [[[ax1 ay1] ax2] ay2], b as [[[bx1 by1] bx2] by2]; simpl.
  split.
  - intros Hpos.
    assert (0 < Z.max 0 (Z.min ax2 bx2 - Z.max ax1 bx1)
            ∧ 0 < Z.max 0 (Z.min ay2 by2 - Z.max ay1 by1)) as [Hw Hh] by nia.
    lia.
  - intros ([??] & [??] & ? & ? & ? & ?). apply Z.mul_pos_pos; lia.
Qed.

Lemma iou_pos_iff a b : (0 < _compute_iou a b)%Q ↔ 0 < inter_area a b.
Proof.
  unfold _compute_iou. pose proof (inter_le_union a b) as Hle.
  destruct (Z.ltb_spec 0 (union_area a b)) as [Hu|Hu].
  - split.
    + intros Hpos. apply Z.lt_nge. intros Hneg.
      apply (Qlt_not_le _ _ Hpos). apply Qle_shift_div_r.
      * change 0%Q with (inject_Z 0). by rewrite <- Zlt_Qlt.
      * rewrite Qmult_0_l. change 0%Q with (inject_Z 0). by rewrite <- Zle_Qle.
    + intros Hpos. apply Qlt_shift_div_l.
      * change 0%Q with (inject_Z 0). by rewrite <- Zlt_Qlt.
      * rewrite Qmult_0_l. change 0%Q with (inject_Z 0). by rewrite <- Zlt_Qlt.
  - split; [intros H; by apply Qlt_irrefl in H|lia].
Qed.

Lemma iou_one_inv a b :
  (_compute_iou a b == 1)%Q → inter_area a b = area a ∧ inter_area a b = area b
                               ∧ 0 < inter_area a b.
Proof.
  unfold _compute_iou.
  pose proof (inter_area_le_l a b). pose proof (inter_area_le_r a b).
  destruct (Z.ltb_spec 0 (union_area a b)) as [Hu|Hu].
  - intros Heq.
    assert (¬ (inject_Z (union_area a b) == 0)%Q) as Hnz.
    { unfold Qeq. simpl. lia. }
    assert (inject_Z (inter_area a b) == inject_Z (union_area a b))%Q as Hiu.
    { rewrite <- (Qmult_div_r (inject_Z (inter_area a b)) _ Hnz), Heq.
      apply Qmult_1_r. }
    unfold Qeq in Hiu. simpl in Hiu.
    unfold union_area in *. lia.
  - intros Heq. unfold Qeq in Heq. simpl in Heq. lia.
Qed.

Lemma iou_one_eq a b : (_compute_iou a b == 1)%Q → a = b.
Proof.
  intros (Ha & Hb & Hpos)%iou_one_inv. revert Ha Hb Hpos.
  destruct a as [[[ax1 ay1] ax2] ay2], b as [[[bx1 by1] bx2] by2]; simpl.
  set (iw := Z.max 0 (Z.min ax2 bx2 - Z.max ax1 bx1)).
  set (ih := Z.max 0 (Z.min ay2 by2 - Z.max ay1 by1)).
  intros Ha Hb Hpos.
  assert (0 < iw ∧ 0 < ih) as [Hiw Hih] by (subst iw ih; nia).
  assert (iw <= Z.max 0 (ax2 - ax1) ∧ ih <= Z.max 0 (ay2 - ay1)
          ∧ iw <= Z.max 0 (bx2 - bx1) ∧ ih <= Z.max 0 (by2 - by1))
    as (Hwa & Hha & Hwb & Hhb) by (subst iw ih; lia).
  assert (iw = Z.max 0 (ax2 - ax1) ∧ ih = Z.max 0 (ay2 - ay1)) as [Ewa Eha] by nia.
  assert (iw = Z.max 0 (bx2 - bx1) ∧ ih = Z.max 0 (by2 - by1)) as [Ewb Ehb] by nia.
  subst iw ih. repeat f_equal; lia.
Qed.

(** X1.  The IoU of two boxes is positive exactly when their interiors
    meet, and it is 1 exactly when the two boxes are the same box, of
    positive width and height. *)
Theorem iou_extremes a b :
  ((0 < _compute_iou a b)%Q ↔ overlapping a b)
  ∧ ((_compute_iou a b == 1)%Q ↔ a = b ∧ non_degenerate a).
Proof.
  split.
  - rewrite iou_pos_iff. apply inter_area_pos_iff.
  - split.
    + intros Heq. pose proof (iou_one_eq a b Heq) as <-. split; [done|].
      apply iou_one_inv in Heq as (_ & _ & Hpos).
      apply inter_area_pos_iff in Hpos.
      destruct a as [[[x1 y1] x2] y2]. by destruct Hpos as (? & _).
    + intros [<- Hnd]. unfold _compute_iou, union_area.
      rewrite inter_area_self. pose proof (area_pos a Hnd) as Hp.
      replace (area a + area a - area a) with (area a) by lia.
      destruct (Z.ltb_spec 0 (area a)); [|lia].
      unfold Qdiv. apply Qmult_inv_r.
      intros Hz. unfold Qeq in Hz. simpl in Hz. lia.
Qed.

(** ** More on the matcher and the track store *)

Lemma matched_run_step frame_idx dets used uc ts ts' used' uc' :
  matched_run frame_idx dets used uc ts ts' used' uc' →
  Forall2 (track_step frame_idx dets) ts ts'.
Proof.
  induction 1 as [used uc|used uc t ts ts' used' uc' j dbox dconf Ha Hj Hrun IH
                  |used uc t ts ts' used' uc' Ha Hrun IH].
  - constructor.
  - constructor; [|done]. right.
    destruct (assigned_Some _ _ _ _ Ha) as (q & (_ & Hq & _) & Hthr & Hpos).
    unfold iou_of in Hq. rewrite Hj in Hq. simpl in Hq. injection Hq as <-.
    rewrite hit_fst. simpl. repeat split; try done.
    exists dconf. by eapply list_elem_of_lookup_2.
  - constructor; [by left|done].
Qed.

Lemma hits_made_cons o n old new :
  hits_made (o :: old) (n :: new)
  = ((if decide (hits n = hits o + 1)%Z then 1 else 0)
     + hits_made old new)%nat.
Proof.
  unfold hits_made. simpl. rewrite filter_cons. simpl. by case_decide.
Qed.

(** Every hit takes one detection that no earlier track of the frame took. *)
Lemma matched_run_used frame_idx dets used uc ts ts' used' uc' :
  matched_run frame_idx dets used uc ts ts' used' uc' →
  (∀ k, k ∈ used → (k < length dets)%nat) →
  (∀ k, k ∈ used' → (k < length dets)%nat)
  ∧ size used' = (size used + hits_made ts ts')%nat.
Proof.
  induction 1 as [used uc|used uc t ts ts' used' uc' j dbox dconf Ha Hj Hrun IH
                  |used uc t ts ts' used' uc' Ha Hrun IH]; intros Hb.
  - split; [done|]. unfold hits_made. simpl. lia.
  - destruct (assigned_Some _ _ _ _ Ha) as (q & (Hnew & _) & _).
    destruct IH as [Hb' Hsz].
    { intros k [->%elem_of_singleton|Hk]%elem_of_union; [|by apply Hb].
      by eapply lookup_lt_Some. }
    split; [done|]. rewrite Hsz, hits_made_cons, hit_fst. simpl.
    rewrite decide_True by done.
    rewrite size_union, size_singleton; [lia|].
    intros k ->%elem_of_singleton. done.
  - destruct (IH Hb) as [Hb' Hsz]. split; [done|].
    rewrite Hsz, hits_made_cons. rewrite decide_False by lia. lia.
Qed.

Lemma unmatched_ext dets j0 (used used' : gset nat) :
  (∀ k, (j0 <= k)%nat → k ∈ used ↔ k ∈ used') →
  unmatched dets j0 used = unmatched dets j0 used'.
Proof.
  revert j0. induction dets as [|[dbox dconf] dets IH]; intros j0 Hext; [done|].
  simpl. rewrite (IH (S j0)) by (intros k Hk; apply Hext; lia).
  destruct (decide (j0 ∈ used)) as [Hin|Hnin].
  - rewrite decide_True; [done|]. by apply (Hext j0).
  - rewrite decide_False; [done|]. intros Hin. by apply Hnin, (Hext j0).
Qed.

(** The detections not used are as many as the detections less the used
    ones. *)
Lemma unmatched_length dets j0 (used : gset nat) :
  (∀ k, k ∈ used → (j0 <= k < j0 + length dets)%nat) →
  (length (unmatched dets j0 used) + size used = length dets)%nat.
Proof.
  revert j0 used. induction dets as [|[dbox dconf] dets IH]; intros j0 used Hb.
  - simpl. assert (used = ∅) as ->; [|by rewrite size_empty].
    apply set_eq. intros k. split; [|by intros ?%not_elem_of_empty].
    intros Hk%Hb. simpl in Hk. lia.
  - simpl. destruct (decide (j0 ∈ used)) as [Hin|Hnin].
    + rewrite (unmatched_ext dets (S j0) used (used ∖ {[j0]})).
      * specialize (IH (S j0) (used ∖ {[j0]})).
        assert (size used = S (size (used ∖ {[j0]}))) as ->.
        { rewrite size_difference by (by apply singleton_subseteq_l).
          rewrite size_singleton.
          assert (size used ≠ 0)%nat; [|lia].
          intros Hz%size_empty_inv. by apply (Hz j0) in Hin. }
        rewrite <- IH; [lia|].
        intros k [Hk Hne]%elem_of_difference. apply Hb in Hk. simpl in Hk.
        assert (k ≠ j0) by (intros ->; apply Hne; by apply elem_of_singleton).
        lia.
      * intros k Hk. rewrite elem_of_difference, elem_of_singleton.
        split; [|by intros [? _]]. intros ?. split; [done|lia].
    + simpl. rewrite <- (IH (S j0) used); [lia|].
      intros k Hk. pose proof (Hb k Hk) as Hr. simpl in Hr.
      assert (k ≠ j0) by (by intros ->). lia.
Qed.

Lemma length_new_tracks frame_idx next_id boxes :
  length (new_tracks frame_idx next_id boxes) = length boxes.
Proof.
  revert next_id. induction boxes as [|b boxes IH]; intros next_id; [done|].
  simpl. by rewrite IH.
Qed.

(** X2.  Within a frame a surviving track is either left exactly as it was
    or hit once by a detection of the frame whose box overlaps its previous
    box with an IoU that is positive and at least the match threshold: a
    track never jumps to a box it does not overlap, whatever the
    threshold. *)
Theorem track_continuity fa se st boxes c :
  let dets := detections_by_class fa boxes c in
  let fresh := age_out (frame_idx st) (tracks st c) in
  let st' := process_frame fa se st boxes in
  Forall2 (track_step (frame_idx st) dets) fresh
    (take (length fresh) (tracks st' c)).
Proof.
  cbv zeta. pose proof (process_frame_class fa se st boxes c) as Hc.
  cbv zeta in Hc.
  destruct (update_class_spec (frame_idx st) (detections_by_class fa boxes c)
              (tracks st c) (next_track_id st c) (unique_counts st c))
    as (matched & used' & uc' & Hrun & Hup).
  rewrite Hup in Hc. apply (f_equal (λ x, x.1.1)) in Hc. cbn [fst] in Hc.
  rewrite Hc, <- (matched_run_length _ _ _ _ _ _ _ _ Hrun), take_app_length.
  by eapply matched_run_step.
Qed.

Lemma greedy_spec_logged frame_idx dets used ts ts' log :
  greedy_spec frame_idx dets used ts ts' log →
  Forall3 (logged_step frame_idx dets) ts log ts'.
Proof.
  induction 1 as [used|used t t' ts ts' log j q dbox dconf Hb Hq Hj Hu Hrun IH
                  |used t ts ts' log Hskip Hrun IH].
  - constructor.
  - constructor; [|done]. simpl. eauto.
  - constructor; [done|done].
Qed.

Lemma greedy_spec_range frame_idx dets used ts ts' log j :
  greedy_spec frame_idx dets used ts ts' log →
  j ∈ assigned_indices log → (j < length dets)%nat.
Proof.
  unfold assigned_indices.
  induction 1 as [used|used t t' ts ts' log j' q dbox dconf Hb Hq Hj Hu Hrun IH
                  |used t ts ts' log Hskip Hrun IH]; simpl.
  - by intros ?%elem_of_nil.
  - intros [->|Hin]%elem_of_cons; [by eapply lookup_lt_Some|by apply IH].
  - done.
Qed.

(** The boxes of [unmatched] are those of the detections whose index is
    not used, in order. *)
Lemma unmatched_indices (pre dets : list detection) (used : gset nat) :
  Forall2 (λ j b, ∃ dconf, (pre ++ dets) !! j = Some (b, dconf))
    (filter (λ j, j ∉ used) (seq (length pre) (length dets)))
    (unmatched dets (length pre) used).
Proof.
  revert pre. induction dets as [|[dbox dconf] dets IH]; intros pre.
  - constructor.
  - specialize (IH (pre ++ [(dbox, dconf)])).
    rewrite length_app, <- app_assoc in IH. simpl in IH.
    replace (length pre + 1)%nat with (S (length pre)) in IH by lia.
    simpl. rewrite filter_cons.
    destruct (decide (length pre ∈ used)) as [Hin|Hnin].
    + rewrite decide_False by (by intros Hn). done.
    + rewrite decide_True by done. constructor; [|done].
      exists dconf. by rewrite list_lookup_middle.
Qed.

Lemma new_tracks_created frame_idx dets next_id js boxes :
  Forall2 (λ j b, ∃ dconf, dets !! j = Some (b, dconf)) js boxes →
  Forall2 (created_from frame_idx dets) js
    (new_tracks frame_idx next_id boxes).
Proof.
  intros H. revert next_id.
  induction H as [|j b js boxes Hj H IH]; intros next_id; simpl.
  - constructor.
  - constructor; [|apply IH]. by split.
Qed.

(** A duplicate-free list of indices below [n] and the indices not in it
    make up all the indices below [n]. *)
Lemma indices_split (a : list nat) (n : nat) :
  NoDup a → (∀ j, j ∈ a → (j < n)%nat) →
  a ++ filter (λ j, j ∉ a) (seq 0 n) ≡ₚ seq 0 n.
Proof.
  intros Hnd Hr.
  rewrite <- (filter_app_complement (λ j, j ∈ a) (seq 0 n)) at 2.
  apply Permutation_app_tail, NoDup_Permutation.
  - done.
  - apply NoDup_filter, NoDup_seq.
  - intros j. rewrite list_elem_of_filter, elem_of_seq. split.
    + intros Hj. split; [done|]. apply Hr in Hj. lia.
    + by intros [? _].
Qed.

(** X3.  In each frame and for each class every accepted detection is used
    exactly once.  The matcher has a log with one entry per surviving
    track: a track whose entry is a detection index was updated from that
    detection (its box, last seen = the frame, hits + 1, same id), a track
    without one is as it was.  The tracks behind the surviving ones in the
    store afterwards are the created ones: in detection order, one for each
    detection whose index is not in the log, with the box of that
    detection, last seen = the frame, hits = 1, not counted, and the
    consecutive ids from the next id on.  The indices in the log together
    with the indices of the detections turned into tracks are a
    rearrangement of all the indices of the accepted detections, each
    occurring once.  So the number of accepted detections is the number of
    tracks hit plus the number of tracks created, by which the next id and
    the store size advance. *)
Theorem detections_accounted fa se st boxes c :
  let dets := detections_by_class fa boxes c in
  let fresh := age_out (frame_idx st) (tracks st c) in
  let st' := process_frame fa se st boxes in
  let created := next_track_id st' c - next_track_id st c in
  (∃ log,
     Forall3 (logged_step (frame_idx st) dets) fresh log
       (take (length fresh) (tracks st' c))
     ∧ Forall2 (created_from (frame_idx st) dets)
         (unassigned log (length dets))
         (drop (length fresh) (tracks st' c))
     ∧ map id (drop (length fresh) (tracks st' c))
       = seqZ (next_track_id st c) created
     ∧ assigned_indices log ++ unassigned log (length dets)
       ≡ₚ seq 0 (length dets)
     ∧ created = Z.of_nat (length (unassigned log (length dets))))
  ∧ Z.of_nat (length dets)
    = Z.of_nat (hits_made fresh (take (length fresh) (tracks st' c))) + created
  ∧ Z.of_nat (length (tracks st' c)) = Z.of_nat (length fresh) + created
  ∧ 0 <= created.
Proof.
  cbv zeta. pose proof (process_frame_class fa se st boxes c) as Hc.
  cbv zeta in Hc.
  destruct (update_class_spec (frame_idx st) (detections_by_class fa boxes c)
              (tracks st c) (next_track_id st c) (unique_counts st c))
    as (matched & used' & uc' & Hrun & Hup).
  rewrite Hup in Hc.
  pose proof (f_equal (λ x, x.1.1) Hc) as Ht.
  pose proof (f_equal (λ x, x.1.2) Hc) as Hn. cbn [fst snd] in Ht, Hn.
  rewrite Ht, Hn. clear Hc Ht Hn.
  pose proof (matched_run_length _ _ _ _ _ _ _ _ Hrun) as Hlen.
  destruct (matched_run_used _ _ _ _ _ _ _ _ Hrun) as [Hb Hsz].
  { by intros k ?%not_elem_of_empty. }
  rewrite size_empty in Hsz.
  assert (length (unmatched (detections_by_class fa boxes c) 0 used')
          + size used' = length (detections_by_class fa boxes c))%nat as Hu.
  { apply unmatched_length. intros k Hk%Hb. lia. }
  rewrite <- Hlen, take_app_length, drop_app_length.
  split; [|rewrite length_app, length_new_tracks; lia].
  destruct (matched_run_greedy _ _ _ _ _ _ _ _ Hrun)
    as (log & Hspec & Hnd & _ & Hused).
  rewrite (right_id_L ∅ (∪)) in Hused.
  pose proof (unmatched_indices [] (detections_by_class fa boxes c) used')
    as Hidx. simpl in Hidx.
  rewrite (list_filter_iff _ (λ j, j ∉ assigned_indices log)) in Hidx.
  2:{ intros j. by rewrite Hused, elem_of_list_to_set. }
  exists log. split; [by eapply greedy_spec_logged|].
  split; [by apply new_tracks_created|].
  split.
  { rewrite new_tracks_ids. f_equal. lia. }
  split.
  { apply indices_split; [done|].
    intros j Hj. by eapply greedy_spec_range. }
  unfold unassigned. rewrite (Forall2_length _ _ _ Hidx). lia.
Qed.

Lemma StronglySorted_map_filter {A} (f : A → Z) (P : A → Prop)
    `{!∀ x, Decision (P x)} (l : list A) :
  StronglySorted Z.lt (map f l) → StronglySorted Z.lt (map f (filter P l)).
Proof.
  induction l as [|x l IH]; [done|]. simpl.
  intros [Hx Hs]%StronglySorted_cons. rewrite filter_cons.
  case_decide; [|auto]. simpl. apply StronglySorted_cons. split; [|auto].
  apply Forall_forall. intros y (z & -> & Hz)%list_elem_of_fmap.
  apply list_elem_of_filter in Hz as [_ Hz].
  apply (proj1 (Forall_forall _ _) Hx), list_elem_of_fmap. eauto.
Qed.

Lemma new_tracks_sorted frame_idx next_id boxes :
  StronglySorted Z.lt (map id (new_tracks frame_idx next_id boxes)).
Proof.
  revert next_id. induction boxes as [|b boxes IH]; intros next_id; simpl.
  - constructor.
  - apply StronglySorted_cons. split; [|apply IH].
    apply Forall_forall. intros i (t & -> & Ht)%list_elem_of_fmap.
    apply new_tracks_props in Ht as (? & _). simpl. lia.
Qed.

(** The freshness and the id order of a class's store are kept by every
    per-class update. *)
Lemma update_class_fresh frame_idx dets ts next_id uc :
  0 <= frame_idx →
  Forall (track_fresh frame_idx) ts →
  Forall (λ t, id t < next_id) ts →
  StronglySorted Z.lt (map id ts) →
  let r := update_class frame_idx dets ts next_id uc in
  Forall (track_fresh (frame_idx + 1)) r.1.1
  ∧ StronglySorted Z.lt (map id r.1.1).
Proof.
  intros Hidx Hfr Hid Hs.
  destruct (update_class_spec frame_idx dets ts next_id uc)
    as (matched & used' & uc' & Hrun & ->).
  cbn [fst snd].
  pose proof (matched_run_step _ _ _ _ _ _ _ _ Hrun) as Hstep.
  pose proof (matched_run_ids _ _ _ _ _ _ _ _ Hrun) as Hids.
  split.
  - apply Forall_app. split.
    + apply Forall_forall. intros n Hn.
      apply list_elem_of_lookup in Hn as [i Hi].
      destruct (Forall2_lookup_r _ _ _ _ _ Hstep Hi) as (o & Ho & Hon).
      apply list_elem_of_lookup_2, age_out_elem in Ho as [Hage Ho].
      apply (proj1 (Forall_forall _ _) Hfr) in Ho as (? & ? & ? & ?).
      unfold track_fresh.
      destruct Hon as [->|(_ & Hh & Hl & _)]; [lia|]. rewrite Hh, Hl.
      unfold TRACK_TIMEOUT. lia.
    + apply Forall_forall. intros t (_ & _ & Hl & Hh & _)%new_tracks_props.
      unfold track_fresh, TRACK_TIMEOUT. rewrite Hl, Hh. lia.
  - rewrite map_app, Hids. apply StronglySorted_app_2.
    + intros i1 i2 (t1 & -> & [_ Ht1]%age_out_elem)%list_elem_of_fmap
        (t2 & -> & Ht2)%list_elem_of_fmap.
      apply (proj1 (Forall_forall _ _) Hid) in Ht1.
      apply new_tracks_props in Ht2 as (? & _). lia.
    + unfold age_out. by apply StronglySorted_map_filter.
    + apply new_tracks_sorted.
Qed.

Lemma run_fresh v fs c :
  Forall (track_fresh (frame_idx (run v fs))) (tracks (run v fs) c)
  ∧ StronglySorted Z.lt (map id (tracks (run v fs) c)).
Proof.
  induction fs as [|boxes fs IH] using rev_ind.
  - split; constructor.
  - destruct IH as [Hfr Hs].
    destruct (run_class_inv v fs c) as (_ & Hid & _).
    pose proof (run_snoc_class v fs boxes c) as Hc.
    pose proof (update_class_fresh (frame_idx (run v fs))
                  (detections_by_class (width v * height v) boxes c)
                  (tracks (run v fs) c) (next_track_id (run v fs) c)
                  (unique_counts (run v fs) c)) as Hup.
    rewrite <- Hc in Hup. cbn [fst] in Hup.
    rewrite run_snoc, process_frame_idx, <- run_snoc.
    apply Hup; [rewrite run_frame_idx; lia|done| |done].
    eapply Forall_impl; [exact Hid|]. simpl. lia.
Qed.

(** X4.  At every frame boundary of a run every stored track of a class has
    been hit at least once and at most once per frame up to the frame it
    was last seen in, was last seen in an earlier frame no more than 30
    frames before the last processed one, and is counted exactly when its
    hits have reached 3; the ids of the store are strictly increasing in
    store order (the matcher visits the tracks oldest first) and lie between
    1 and the next id. *)
Theorem store_invariant v fs c :
  let st := run v fs in
  Forall (λ t, track_fresh (frame_idx st) t ∧ track_ok t
               ∧ 1 <= id t < next_track_id st c) (tracks st c)
  ∧ StronglySorted Z.lt (map id (tracks st c))
  ∧ frame_idx st = Z.of_nat (length fs).
Proof.
  cbv zeta. destruct (run_fresh v fs c) as [Hfr Hs].
  destruct (run_class_inv v fs c) as (Hok & Hid & _).
  split; [|split; [done|apply run_frame_idx]].
  apply Forall_forall. intros t Ht.
  split; [by apply (proj1 (Forall_forall _ _) Hfr)|].
  split; [by apply (proj1 (Forall_forall _ _) Hok)|].
  by apply (proj1 (Forall_forall _ _) Hid).
Qed.

Lemma confirmations_none old new :
  Forall2 (λ o n, ¬ confirms o n) old new → confirmations old new = 0%nat.
Proof.
  induction 1 as [|o n old new Hn _ IH]; [done|].
  rewrite confirmations_cons, IH. by rewrite decide_False.
Qed.

Lemma run_early v fs c :
  (length fs <= 2)%nat → unique_counts (run v fs) c = 0.
Proof.
  induction fs as [|boxes fs IH] using rev_ind; [done|].
  rewrite length_app. simpl. intros Hlen.
  pose proof (run_snoc_class v fs boxes c) as Hc.
  destruct (update_class_spec (frame_idx (run v fs))
              (detections_by_class (width v * height v) boxes c)
              (tracks (run v fs) c) (next_track_id (run v fs) c)
              (unique_counts (run v fs) c))
    as (matched & used' & uc' & Hrun & Hup).
  rewrite Hup in Hc. injection Hc as _ _ ->.
  destruct (run_class_inv v fs c) as (Hok & _).
  destruct (run_fresh v fs c) as [Hfr _].
  assert (Forall track_ok (age_out (frame_idx (run v fs)) (tracks (run v fs) c)))
    as Hok1.
  { apply Forall_forall. intros t [_ Ht]%age_out_elem.
    by apply (proj1 (Forall_forall _ _) Hok). }
  destruct (matched_run_transition _ _ _ _ _ _ _ _ Hrun Hok1) as (_ & _ & ->).
  rewrite IH by lia. rewrite confirmations_none; [done|].
  pose proof (matched_run_step _ _ _ _ _ _ _ _ Hrun) as Hstep.
  apply Forall2_same_length_lookup. split; [by eapply Forall2_length|].
  intros i o n Ho Hn.
  pose proof (Forall2_lookup_lr _ _ _ _ _ _ Hstep Ho Hn) as Hon.
  apply list_elem_of_lookup_2, age_out_elem in Ho as [_ Ho].
  apply (proj1 (Forall_forall _ _) Hfr) in Ho as (? & ? & ? & _).
  rewrite run_frame_idx in *. unfold confirms, CONFIRM_HITS.
  destruct Hon as [->|(_ & Hh & _)]; lia.
Qed.

(** X5.  A run of one or two frames returns a record that reports no
    vehicle at all, whatever was detected: a track needs hits in three
    different frames to be counted. *)
Theorem short_run_counts_nothing v :
  cap_opened v = true → frames v ≠ [] → (length (frames v) <= 2)%nat →
  ∃ r, process_video v true = inr r
    ∧ total_vehicles r = 0 ∧ ∀ c, vehicle_counts r c = 0.
Proof.
  intros Ho Hne Hlen. eexists. split; [by apply process_video_ok|].
  cbn [summarize total_vehicles vehicle_counts].
  split; [|intros c; by apply run_early].
  by rewrite !run_early.
Qed.

(** ** Counting against the detections *)

Lemma credit_cons t ts :
  credit (t :: ts) = (if counted t then 0 else hits t) + credit ts.
Proof. reflexivity. Qed.

Lemma credit_app ts1 ts2 : credit (ts1 ++ ts2) = credit ts1 + credit ts2.
Proof.
  induction ts1 as [|t ts1 IH]; [done|].
  simpl app. rewrite !credit_cons, IH. lia.
Qed.

Lemma credit_nonneg ts : Forall track_ok ts → 0 <= credit ts.
Proof.
  induction 1 as [|t ts [Hh _] _ IH]; [done|].
  rewrite credit_cons. destruct (counted t); lia.
Qed.

Lemma credit_age_out frame_idx ts :
  Forall track_ok ts → credit (age_out frame_idx ts) <= credit ts.
Proof.
  induction 1 as [|t ts [Hh _] Hok IH]; [done|].
  unfold age_out in *. rewrite filter_cons. case_decide.
  - rewrite !credit_cons. lia.
  - rewrite credit_cons. destruct (counted t); lia.
Qed.

Lemma credit_new_tracks frame_idx next_id boxes :
  credit (new_tracks frame_idx next_id boxes) = Z.of_nat (length boxes).
Proof.
  revert next_id. induction boxes as [|b boxes IH]; intros next_id; [done|].
  simpl new_tracks. rewrite credit_cons, IH. simpl. lia.
Qed.

(** A hit adds at most one to three times the unique count plus the hits
    of the tracks not yet counted: a confirmation trades the two hits the
    track had for one count. *)
Lemma matched_run_credit frame_idx dets used uc ts ts' used' uc' :
  matched_run frame_idx dets used uc ts ts' used' uc' →
  Forall track_ok ts →
  3 * uc' + credit ts' <= 3 * uc + credit ts + Z.of_nat (hits_made ts ts').
Proof.
  induction 1 as [used uc|used uc t ts ts' used' uc' j dbox dconf Ha Hj Hrun IH
                  |used uc t ts ts' used' uc' Ha Hrun IH]; intros Hok.
  - unfold hits_made. simpl. lia.
  - apply Forall_cons_1 in Hok as [[Hh Hc] Hok]. specialize (IH Hok).
    rewrite hits_made_cons, !credit_cons. rewrite hit_snd in IH.
    rewrite hit_fst. simpl. rewrite decide_True by done.
    unfold CONFIRM_HITS in *.
    destruct (counted t) eqn:Ec; simpl in *.
    + lia.
    + destruct (Z.leb_spec 3 (hits t + 1)); simpl in *.
      * assert (hits t < 3); [|lia].
        apply Z.lt_nge. intros Hge. by apply Hc in Hge.
      * lia.
  - apply Forall_cons_1 in Hok as [_ Hok]. specialize (IH Hok).
    rewrite hits_made_cons, !credit_cons. rewrite decide_False by lia. lia.
Qed.

Lemma update_class_credit frame_idx dets ts next_id uc :
  Forall track_ok ts →
  let r := update_class frame_idx dets ts next_id uc in
  3 * r.2 + credit r.1.1 <= 3 * uc + credit ts + Z.of_nat (length dets).
Proof.
  intros Hok.
  destruct (update_class_spec frame_idx dets ts next_id uc)
    as (matched & used' & uc' & Hrun & ->).
  cbn [fst snd].
  assert (Forall track_ok (age_out frame_idx ts)) as Hok1.
  { apply Forall_forall. intros t [_ Ht]%age_out_elem.
    by apply (proj1 (Forall_forall _ _) Hok). }
  pose proof (matched_run_credit _ _ _ _ _ _ _ _ Hrun Hok1) as Hcr.
  destruct (matched_run_used _ _ _ _ _ _ _ _ Hrun) as [Hb Hsz].
  { by intros k ?%not_elem_of_empty. }
  rewrite size_empty in Hsz.
  assert (length (unmatched dets 0 used') + size used' = length dets)%nat as Hu.
  { apply unmatched_length. intros k Hk%Hb. lia. }
  pose proof (credit_age_out frame_idx ts Hok).
  rewrite credit_app, credit_new_tracks. lia.
Qed.

Lemma class_detections_snoc fa fs boxes c :
  class_detections fa (fs ++ [boxes]) c
  = class_detections fa fs c
    + Z.of_nat (length (detections_by_class fa boxes c)).
Proof.
  induction fs as [|f fs IH]; simpl.
  - lia.
  - fold (class_detections fa (fs ++ [boxes]) c). rewrite IH.
    fold (class_detections fa fs c). lia.
Qed.

Lemma run_credit v fs c :
  3 * unique_counts (run v fs) c + credit (tracks (run v fs) c)
  <= class_detections (width v * height v) fs c.
Proof.
  induction fs as [|boxes fs IH] using rev_ind; [done|].
  pose proof (run_snoc_class v fs boxes c) as Hc.
  destruct (run_class_inv v fs c) as (Hok & _).
  pose proof (update_class_credit (frame_idx (run v fs))
                (detections_by_class (width v * height v) boxes c)
                (tracks (run v fs) c) (next_track_id (run v fs) c)
                (unique_counts (run v fs) c) Hok) as Hup.
  rewrite <- Hc in Hup. cbn [fst snd] in Hup.
  rewrite class_detections_snoc. lia.
Qed.

Lemma class_detections_total fa fs :
  class_detections fa fs car + class_detections fa fs truck
  + class_detections fa fs bus + class_detections fa fs motorcycle
  = Z.of_nat (length (accepted_confidences fa fs)).
Proof.
  induction fs as [|boxes fs IH]; [done|].
  unfold accepted_confidences in *. simpl.
  fold (class_detections fa fs car) (class_detections fa fs truck)
    (class_detections fa fs bus) (class_detections fa fs motorcycle).
  rewrite length_app, Nat2Z.inj_add, <- IH.
  unfold frame_confidences. rewrite !length_app, !length_map. lia.
Qed.

(** X6.  At every frame boundary the unique count of a class is at most a
    third of the detections accepted for the class so far, and the
    total_vehicles of a result is at most a third of all the detections
    accepted in the run. *)
Theorem count_bounded_by_detections v fs c :
  3 * unique_counts (run v fs) c
  <= class_detections (width v * height v) fs c
  ∧ 3 * total_vehicles (summarize (run v fs))
    <= Z.of_nat (length (accepted_confidences (width v * height v) fs)).
Proof.
  assert (∀ c', 3 * unique_counts (run v fs) c'
                <= class_detections (width v * height v) fs c') as Hb.
  { intros c'. pose proof (run_credit v fs c').
    destruct (run_class_inv v fs c') as (Hok & _).
    pose proof (credit_nonneg _ Hok). lia. }
  split; [apply Hb|].
  rewrite <- class_detections_total. cbn [summarize total_vehicles].
  pose proof (Hb car). pose proof (Hb truck).
  pose proof (Hb bus). pose proof (Hb motorcycle). lia.
Qed.

(** ** More on the aggregates of a run *)

Lemma accepted_conf_bound fa boxes c det :
  det ∈ detections_by_class fa boxes c →
  (Qmin conf_global motorcycle_conf <= det.2)%Q.
Proof.
  intros (d & _ & Hacc)%detections_by_class_spec.
  apply accept_spec in Hacc as (_ & Hthr & _ & ->). simpl.
  eapply Qle_trans; [|exact Hthr]. unfold conf_threshold.
  case_decide; [apply Q.le_min_r|apply Q.le_min_l].
Qed.

Lemma frame_confidences_bound fa boxes q :
  q ∈ frame_confidences fa boxes → (Qmin conf_global motorcycle_conf <= q)%Q.
Proof.
  unfold frame_confidences. rewrite !elem_of_app.
  intros [H|[H|[H|H]]]; apply list_elem_of_fmap in H as (det & -> & Hdet);
    by eapply accepted_conf_bound.
Qed.

Lemma accepted_confidences_bound fa fs q :
  q ∈ accepted_confidences fa fs → (Qmin conf_global motorcycle_conf <= q)%Q.
Proof.
  unfold accepted_confidences. induction fs as [|boxes fs IH]; simpl.
  - by intros ?%elem_of_nil.
  - intros [Hq|Hq]%elem_of_app; [by eapply frame_confidences_bound|auto].
Qed.

Lemma Qsum_lower m l :
  (∀ q, q ∈ l → (m <= q)%Q) →
  (inject_Z (Z.of_nat (length l)) * m <= Qsum l)%Q.
Proof.
  induction l as [|x l IH]; intros Hm.
  - simpl. rewrite Qmult_0_l. apply Qle_refl.
  - simpl length. rewrite Nat2Z.inj_succ. unfold Z.succ.
    rewrite inject_Z_plus. simpl Qsum.
    rewrite Qmult_plus_distr_l, Qmult_1_l, Qplus_comm.
    apply Qplus_le_compat.
    + apply Hm, list_elem_of_here.
    + apply IH. intros q Hq. by apply Hm, list_elem_of_further.
Qed.

Lemma avg_lower m l :
  l ≠ [] → (∀ q, q ∈ l → (m <= q)%Q) →
  (m <= Qsum l / inject_Z (Z.of_nat (length l)))%Q.
Proof.
  intros Hne Hm. apply Qle_shift_div_l.
  - change 0%Q with (inject_Z 0). rewrite <- Zlt_Qlt.
    destruct l; [done|simpl; lia].
  - rewrite Qmult_comm. by apply Qsum_lower.
Qed.

Lemma Qsum_upper m l :
  (∀ q, q ∈ l → (q <= m)%Q) →
  (Qsum l <= inject_Z (Z.of_nat (length l)) * m)%Q.
Proof.
  induction l as [|x l IH]; intros Hm.
  - simpl. rewrite Qmult_0_l. apply Qle_refl.
  - simpl length. rewrite Nat2Z.inj_succ. unfold Z.succ.
    rewrite inject_Z_plus. simpl Qsum.
    rewrite Qmult_plus_distr_l, Qmult_1_l, Qplus_comm.
    apply Qplus_le_compat.
    + apply IH. intros q Hq. by apply Hm, list_elem_of_further.
    + apply Hm, list_elem_of_here.
Qed.

Lemma avg_upper m l :
  l ≠ [] → (∀ q, q ∈ l → (q <= m)%Q) →
  (Qsum l / inject_Z (Z.of_nat (length l)) <= m)%Q.
Proof.
  intros Hne Hm. apply Qle_shift_div_r.
  - change 0%Q with (inject_Z 0). rewrite <- Zlt_Qlt.
    destruct l; [done|simpl; lia].
  - rewrite Qmult_comm. by apply Qsum_upper.
Qed.

(** X7.  Every confidence that enters the average is at least the smaller
    of the two confidence thresholds.  When some detection was accepted,
    the returned average confidence is therefore at least the smaller
    threshold, and it is at most any bound on the accepted confidences; when
    none was accepted in the whole run it is 0 and low_confidence is
    raised, whatever the thresholds. *)
Theorem avg_confidence_bounds v :
  cap_opened v = true → frames v ≠ [] →
  ∃ r, process_video v true = inr r
    ∧ (let confs := accepted_confidences (width v * height v) (frames v) in
       Forall (λ q, (Qmin conf_global motorcycle_conf <= q)%Q) confs
       ∧ (confs ≠ [] → (Qmin conf_global motorcycle_conf <= avg_confidence r)%Q)
       ∧ (∀ hi, confs ≠ [] → Forall (λ q, (q <= hi)%Q) confs →
            (avg_confidence r <= hi)%Q)
       ∧ (confs = [] → (avg_confidence r == 0)%Q ∧ low_confidence r = true)).
Proof.
  intros Ho Hf. eexists. split; [by apply process_video_ok|].
  cbv zeta. cbn [summarize avg_confidence low_confidence].
  rewrite run_conf_count.
  set (confs := accepted_confidences (width v * height v) (frames v)).
  split.
  { apply Forall_forall. intros q. apply accepted_confidences_bound. }
  destruct (Z.eqb_spec (Z.of_nat (length confs)) 0) as [E|E].
  - assert (confs = []) as Hnil by (destruct confs; [done|simpl in E; lia]).
    split; [done|]. split; [done|]. intros _. by split.
  - assert (confs ≠ []) as Hne by (intros Hnil; rewrite Hnil in E; done).
    pose proof (run_conf_sum v (frames v)) as Hsum. fold confs in Hsum.
    split; [|split; [|done]].
    + intros _. rewrite Hsum. apply avg_lower; [done|].
      intros q. apply accepted_confidences_bound.
    + intros hi _ Hhi. rewrite Hsum. apply avg_upper; [done|].
      intros q Hq. by eapply Forall_forall in Hhi.
Qed.

Lemma sampled_from_elem {A} se i (fs : list A) f :
  f ∈ sampled_from se i fs → f ∈ fs.
Proof.
  revert i. induction fs as [|g fs IH]; intros i; simpl; [done|].
  case_match; rewrite ?elem_of_cons; [intros [->|Hf]|intros Hf];
    [by left|right; by eapply IH|right; by eapply IH].
Qed.

Lemma density_pct_mono t1 t2 :
  t1 <= t2 → (density_pct t1 <= density_pct t2)%Q.
Proof.
  intros Hle. unfold density_pct. apply Q.min_le_compat_l.
  apply Qmult_le_compat_r; [|done].
  change (inject_Z (MAX_VEHICLES_PER_LANE * NUM_LANES)) with 45%Q.
  unfold Qdiv. apply Qmult_le_compat_r; [|done]. by rewrite <- Zle_Qle.
Qed.

(** X8.  In a returned record the overall density lies in [0, 100] and is
    at least every entry of the density timeline; the timeline starts with
    the density of frame 0; and when the frame rate is below 10 (also when
    it is reported as 0) every frame is sampled. *)
Theorem density_dominates_timeline v :
  cap_opened v = true → frames v ≠ [] →
  ∃ r, process_video v true = inr r
    ∧ (0 <= density r)%Q ∧ (density r <= 100)%Q
    ∧ Forall (λ e, (e <= density r)%Q) (r_density_series r)
    ∧ head (r_density_series r)
      = (λ boxes, density_pct (frame_total (width v * height v) boxes))
        <$> head (frames v)
    ∧ (fps v < 10 → length (r_density_series r) = length (frames v)).
Proof.
  intros Ho Hf. eexists. split; [by apply process_video_ok|].
  cbn [summarize density r_density_series]. rewrite run_max, run_series.
  fold (density_pct (max_concurrent (width v * height v) (frames v))).
  assert (0 <= max_concurrent (width v * height v) (frames v)) as Hm.
  { destruct (max_concurrent_attained (width v * height v) (frames v) Hf)
      as (b & _ & <-). apply frame_total_nonneg. }
  split; [by apply density_pct_range|]. split; [by apply density_pct_range|].
  split; [|split].
  - apply Forall_fmap, Forall_forall. intros boxes Hb%sampled_from_elem.
    apply density_pct_mono. by apply max_concurrent_upper.
  - by destruct (frames v) as [|f fs].
  - intros Hfps. rewrite length_map. apply Nat2Z.inj.
    rewrite length_sampled by apply sample_every_pos.
    assert (sample_every_of (fps v) = 1) as ->.
    { unfold sample_every_of.
      assert (fps v `div` 5 <= 1); [|lia].
      apply Z.lt_succ_r. apply Z.div_lt_upper_bound; lia. }
    rewrite Z.div_1_r. lia.
Qed.

(** ** Independence of the classes *)

Lemma only_class_detections fa boxes c :
  detections_by_class fa (only_class c boxes) c
  = detections_by_class fa boxes c.
Proof.
  unfold only_class. induction boxes as [|d boxes IH]; [done|].
  rewrite filter_cons. case_decide as Hc; simpl.
  - by rewrite IH.
  - rewrite IH. destruct (accept fa d) as [[vt det]|] eqn:Ea; [|done].
    apply accept_spec in Ea as (Hvt & _).
    destruct (decide (vt = c)) as [->|]; [done|done].
Qed.

Lemma run_class_ext v fs1 fs2 c :
  Forall2 (λ b1 b2, detections_by_class (width v * height v) b1 c
                    = detections_by_class (width v * height v) b2 c) fs1 fs2 →
  (tracks (run v fs1) c, next_track_id (run v fs1) c,
   unique_counts (run v fs1) c)
  = (tracks (run v fs2) c, next_track_id (run v fs2) c,
     unique_counts (run v fs2) c).
Proof.
  revert fs2. induction fs1 as [|b1 fs1 IH] using rev_ind; intros fs2 H2.
  - by apply Forall2_nil_inv_l in H2 as ->.
  - apply Forall2_app_inv_l in H2 as (fs2' & l2 & H2' & Hl & ->).
    apply Forall2_cons_inv_l in Hl as (b2 & l2' & Hb & Hnil & ->).
    apply Forall2_nil_inv_l in Hnil as ->.
    rewrite !run_snoc_class, !run_frame_idx, Hb.
    rewrite (Forall2_length _ _ _ H2').
    specialize (IH fs2' H2'). by injection IH as -> -> ->.
Qed.

(** X10.  The tracks, the next id and the unique count of a class after a
    run depend only on the detections accepted for that class, frame by
    frame: two runs whose frames agree on them agree on the class, and in
    particular removing from every frame the raw detections of all other
    classes changes nothing for the class. *)
Theorem class_independence v c :
  (∀ fs1 fs2,
     Forall2 (λ b1 b2, detections_by_class (width v * height v) b1 c
                       = detections_by_class (width v * height v) b2 c)
       fs1 fs2 →
     tracks (run v fs1) c = tracks (run v fs2) c
     ∧ next_track_id (run v fs1) c = next_track_id (run v fs2) c
     ∧ unique_counts (run v fs1) c = unique_counts (run v fs2) c)
  ∧ (∀ fs,
       tracks (run v (map (only_class c) fs)) c = tracks (run v fs) c
       ∧ next_track_id (run v (map (only_class c) fs)) c
         = next_track_id (run v fs) c
       ∧ unique_counts (run v (map (only_class c) fs)) c
         = unique_counts (run v fs) c).
Proof.
  assert (∀ fs1 fs2,
     Forall2 (λ b1 b2, detections_by_class (width v * height v) b1 c
                       = detections_by_class (width v * height v) b2 c)
       fs1 fs2 →
     tracks (run v fs1) c = tracks (run v fs2) c
     ∧ next_track_id (run v fs1) c = next_track_id (run v fs2) c
     ∧ unique_counts (run v fs1) c = unique_counts (run v fs2) c) as Hext.
  { intros fs1 fs2 H2. pose proof (run_class_ext v fs1 fs2 c H2) as Heq.
    by injection Heq as -> -> ->. }
  split; [exact Hext|]. intros fs. apply Hext.
  apply Forall2_fmap_l, Forall_Forall2_diag, Forall_forall.
  intros boxes _. apply only_class_detections.
Qed.

(** ** Lanes *)

Lemma in_lane_cons lh l t ts :
  in_lane lh l (t :: ts)
  = (if decide (lane_of lh (bbox t) = l) then 1 else 0) + in_lane lh l ts.
Proof.
  unfold in_lane. rewrite filter_cons. case_decide; simpl length; lia.
Qed.

Lemma count_tracks_spec lh vtype ts stats l c :
  let r := foldl (λ lane_stats t,
                    count_in_lane vtype (lane_of lh (bbox t)) lane_stats)
                 stats ts in
  lane_total (r l) = lane_total (stats l) + in_lane lh l ts
  ∧ lane_by_type (r l) c
    = lane_by_type (stats l) c
      + (if decide (vtype = c) then in_lane lh l ts else 0).
Proof.
  cbv zeta. revert stats. induction ts as [|t ts IH]; intros stats.
  - unfold in_lane. simpl. case_decide; lia.
  - simpl foldl. destruct (IH (count_in_lane vtype (lane_of lh (bbox t)) stats))
      as [-> ->].
    rewrite in_lane_cons. unfold count_in_lane.
    destruct (decide (lane_of lh (bbox t) = l)) as [->|Hne].
    + rewrite !fn_lookup_insert. simpl.
      destruct (decide (vtype = c)) as [->|Hc].
      * rewrite fn_lookup_insert. lia.
      * rewrite fn_lookup_insert_ne by done. lia.
    + rewrite !fn_lookup_insert_ne by done.
      case_decide; lia.
Qed.

Lemma assign_lanes_spec lh tracks l :
  let stats := assign_lanes lh tracks in
  lane_total (stats l)
  = in_lane lh l (tracks car) + in_lane lh l (tracks truck)
    + in_lane lh l (tracks bus) + in_lane lh l (tracks motorcycle)
  ∧ ∀ c, lane_by_type (stats l) c = in_lane lh l (tracks c).
Proof.
  cbv zeta. unfold assign_lanes, vehicle_types. cbn [foldl].
  split.
  - repeat rewrite (proj1 (count_tracks_spec lh _ _ _ l car)). simpl. lia.
  - intros c. repeat rewrite (proj2 (count_tracks_spec lh _ _ _ l c)).
    destruct c; repeat (first [rewrite decide_True by done
                              |rewrite decide_False by done]); simpl; lia.
Qed.

Lemma in_lane_total lh ts :
  in_lane lh Left_Lane ts + in_lane lh Middle_Lane ts
  + in_lane lh Right_Lane ts = Z.of_nat (length ts).
Proof.
  induction ts as [|t ts IH]; [done|].
  rewrite !in_lane_cons. simpl length.
  destruct (lane_of lh (bbox t));
    repeat (first [rewrite decide_True by done
                  |rewrite decide_False by done]); lia.
Qed.

(** X11.  The lane statistics of a frame partition the stored tracks: the
    entry of a lane for a vehicle type is the number of tracks of that type
    whose box centre falls in the lane, the total of a lane is the sum of
    its four entries, over the three lanes the entries of a type add up to
    the number of stored tracks of the type, and the three totals add up to
    the number of all stored tracks. *)
Theorem lane_stats_partition lh tracks :
  let stats := assign_lanes lh tracks in
  (∀ l c, lane_by_type (stats l) c = in_lane lh l (tracks c))
  ∧ (∀ l, lane_total (stats l)
          = lane_by_type (stats l) car + lane_by_type (stats l) truck
            + lane_by_type (stats l) bus + lane_by_type (stats l) motorcycle)
  ∧ (∀ c, lane_by_type (stats Left_Lane) c + lane_by_type (stats Middle_Lane) c
          + lane_by_type (stats Right_Lane) c
          = Z.of_nat (length (tracks c)))
  ∧ lane_total (stats Left_Lane) + lane_total (stats Middle_Lane)
    + lane_total (stats Right_Lane)
    = Z.of_nat (length (tracks car)) + Z.of_nat (length (tracks truck))
      + Z.of_nat (length (tracks bus)) + Z.of_nat (length (tracks motorcycle)).
Proof.
  cbv zeta.
  assert (∀ l c, lane_by_type (assign_lanes lh tracks l) c
                 = in_lane lh l (tracks c)) as Hby.
  { intros l. apply assign_lanes_spec. }
  assert (∀ l, lane_total (assign_lanes lh tracks l)
               = in_lane lh l (tracks car) + in_lane lh l (tracks truck)
                 + in_lane lh l (tracks bus)
                 + in_lane lh l (tracks motorcycle)) as Htot.
  { intros l. apply assign_lanes_spec. }
  split; [exact Hby|]. split; [|split].
  - intros l. by rewrite Htot, !Hby.
  - intros c. rewrite !Hby. apply in_lane_total.
  - rewrite !Htot.
    pose proof (in_lane_total lh (tracks car)).
    pose proof (in_lane_total lh (tracks truck)).
    pose proof (in_lane_total lh (tracks bus)).
    pose proof (in_lane_total lh (tracks motorcycle)). lia.
Qed.

Lemma int_of_float_comp q1 q2 :
  (q1 == q2)%Q → int_of_float q1 = int_of_float q2.
Proof.
  intros Heq. unfold int_of_float.
  assert (Qle_bool 0 q1 = Qle_bool 0 q2) as -> by (by rewrite Heq).
  by rewrite (Qfloor_comp _ _ Heq), (Qceiling_comp _ _ Heq).
Qed.

Lemma int_of_float_frac (n : Z) (d : positive) :
  0 <= n → int_of_float (n # d) = n `div` Z.pos d.
Proof.
  intros Hn. unfold int_of_float.
  assert (Qle_bool 0 (n # d) = true) as ->; [|done].
  apply Qle_bool_iff. unfold Qle. simpl. lia.
Qed.

Lemma lane_heights_nonneg height :
  0 <= height →
  lane_heights height = ((33 * height) `div` 100, (66 * height) `div` 100).
Proof.
  intros Hh. unfold lane_heights. f_equal.
  - rewrite (int_of_float_comp _ (33 * height # 100)).
    + apply int_of_float_frac. lia.
    + unfold Qeq. simpl. lia.
  - rewrite (int_of_float_comp _ (66 * height # 100)).
    + apply int_of_float_frac. lia.
    + unfold Qeq. simpl. lia.
Qed.

(** X12.  For a frame height that is not negative the two lane boundaries
    are floor(33*height/100) and floor(66*height/100), in this order and
    inside the frame, and a track is put in the left lane when its box
    centre [(y1 + y2) // 2] is above the first boundary, in the middle lane
    when it is between the two, and in the right lane when it is at or
    below the second, also when the centre lies outside the frame. *)
Theorem lane_bands height b :
  0 <= height →
  let lh := lane_heights height in
  lh = ((33 * height) `div` 100, (66 * height) `div` 100)
  ∧ 0 <= lh.1 ∧ lh.1 <= lh.2 ∧ lh.2 <= height
  ∧ (lane_of lh b = Left_Lane ↔ center_y b < lh.1)
  ∧ (lane_of lh b = Middle_Lane ↔ lh.1 <= center_y b < lh.2)
  ∧ (lane_of lh b = Right_Lane ↔ lh.2 <= center_y b).
Proof.
  intros Hh. cbv zeta. rewrite (lane_heights_nonneg height Hh). cbn [fst snd].
  split; [done|].
  assert (0 <= (33 * height) `div` 100) as H1 by (apply Z.div_pos; lia).
  assert ((33 * height) `div` 100 <= (66 * height) `div` 100) as H2
    by (apply Z.div_le_mono; lia).
  assert ((66 * height) `div` 100 <= height) as H3.
  { apply Z.div_le_upper_bound; lia. }
  split; [done|]. split; [done|]. split; [done|].
  destruct b as [[[x1 y1] x2] y2]. unfold lane_of, center_y. cbn [fst snd].
  destruct (Z.ltb_spec ((y1 + y2) `div` 2) ((33 * height) `div` 100));
    [|destruct (Z.ltb_spec ((y1 + y2) `div` 2) ((66 * height) `div` 100))];
    (split; [|split]); split; intros; try done; lia.
Qed.

Lemma lane_density_small total :
  0 <= total → total < 15 →
  (lane_density total == 100 * total # 15)%Q.
Proof.
  intros H0 H15. unfold lane_density.
  change (inject_Z MAX_VEHICLES_PER_LANE) with 15%Q.
  rewrite Q.min_l.
  - unfold Qeq, Qdiv, Qmult, Qinv, inject_Z. simpl. lia.
  - unfold Qle, Qdiv, Qmult, Qinv, inject_Z. simpl. lia.
Qed.

Lemma lane_density_full total :
  15 <= total → (lane_density total == 100)%Q.
Proof.
  intros H15. unfold lane_density.
  change (inject_Z MAX_VEHICLES_PER_LANE) with 15%Q.
  rewrite Q.min_r; [done|].
  unfold Qle, Qdiv, Qmult, Qinv, inject_Z. simpl. lia.
Qed.

(** X13.  The density shown for a lane with [total] tracks is
    min(100, 100*total/15), so it lies in [0, 100], and the filled part of
    its 200 pixel bar is min(200, floor(40*total/3)) pixels wide: the bar
    never overflows and is full exactly from 15 tracks on. *)
Theorem lane_bar total :
  0 <= total →
  (lane_density total == Qmin 100 (100 * inject_Z total / 15))%Q
  ∧ (0 <= lane_density total)%Q ∧ (lane_density total <= 100)%Q
  ∧ filled_width (lane_density total) = Z.min 200 ((40 * total) `div` 3)
  ∧ 0 <= filled_width (lane_density total) <= 200
  ∧ (filled_width (lane_density total) = 200 ↔ 15 <= total).
Proof.
  intros H0.
  assert (filled_width (lane_density total) = Z.min 200 ((40 * total) `div` 3))
    as Hfw.
  { unfold filled_width. destruct (Z.lt_ge_cases total 15) as [Hlt|Hge].
    - rewrite (int_of_float_comp _ (40 * total # 3)).
      + rewrite int_of_float_frac by lia.
        assert ((40 * total) `div` 3 < 200); [|lia].
        apply Z.div_lt_upper_bound; lia.
      + rewrite (lane_density_small total H0 Hlt).
        unfold Qeq, Qdiv, Qmult, Qinv. simpl. lia.
    - rewrite (int_of_float_comp _ (200 # 1)).
      + rewrite int_of_float_frac by lia.
        assert (200 <= (40 * total) `div` 3); [|rewrite Z.div_1_r; lia].
        apply Z.div_le_lower_bound; lia.
      + by rewrite (lane_density_full total Hge). }
  split; [|split; [|split; [|split; [done|split]]]].
  - unfold lane_density. rewrite Q.min_comm. apply Q.min_compat; [done|].
    change (inject_Z MAX_VEHICLES_PER_LANE) with 15%Q. field.
  - unfold lane_density. apply Q.min_glb; [|done].
    change (inject_Z MAX_VEHICLES_PER_LANE) with 15%Q.
    apply Qmult_le_0_compat; [|done].
    apply Qle_shift_div_l; [done|]. rewrite Qmult_0_l.
    change 0%Q with (inject_Z 0). by rewrite <- Zle_Qle.
  - apply Q.le_min_r.
  - rewrite Hfw. assert (0 <= (40 * total) `div` 3) by (apply Z.div_pos; lia).
    lia.
  - rewrite Hfw. split.
    + intros Heq. destruct (Z.le_gt_cases 15 total) as [|Hlt]; [done|].
      assert ((40 * total) `div` 3 < 200); [|lia].
      apply Z.div_lt_upper_bound; lia.
    + intros Hge. assert (200 <= (40 * total) `div` 3); [|lia].
      apply Z.div_le_lower_bound; lia.
Qed.

(** ** The output path *)

Lemma rsplit_dot_sound p :
  match rsplit_dot p with
  | Some (h, t) => p = h ++ "."%char :: t ∧ "."%char ∉ t
  | None => "."%char ∉ p
  end.
Proof.
  induction p as [|ch p IH]; simpl.
  - by intros ?%elem_of_nil.
  - destruct (rsplit_dot p) as [[h t]|].
    + destruct IH as [-> Hnt]. done.
    + destruct (decide (ch = "."%char)) as [->|Hne]; [done|].
      by intros [?|?]%elem_of_cons.
Qed.

Lemma rsplit_dot_None p : rsplit_dot p = None ↔ "."%char ∉ p.
Proof.
  pose proof (rsplit_dot_sound p) as Hs. split.
  - intros Hn. by rewrite Hn in Hs.
  - intros Hnp. destruct (rsplit_dot p) as [[h t]|]; [|done].
    destruct Hs as [-> _]. destruct Hnp.
    apply elem_of_app. right. apply list_elem_of_here.
Qed.

Lemma rsplit_dot_complete h t :
  "."%char ∉ t → rsplit_dot (h ++ "."%char :: t) = Some (h, t).
Proof.
  intros Hnt. induction h as [|c h IH]; simpl.
  - by rewrite (proj2 (rsplit_dot_None t) Hnt).
  - by rewrite IH.
Qed.

Lemma rsplit_dot_Some p h t :
  rsplit_dot p = Some (h, t) ↔ p = h ++ "."%char :: t ∧ "."%char ∉ t.
Proof.
  split.
  - intros Hr. pose proof (rsplit_dot_sound p) as Hs. by rewrite Hr in Hs.
  - intros [-> Hnt]. by apply rsplit_dot_complete.
Qed.

Lemma endswith_true p suffix : endswith p suffix = true ↔ suffix `suffix_of` p.
Proof. unfold endswith. apply bool_decide_eq_true. Qed.

(** X14.  The path the writer is opened on always ends in ".mp4"; it is the
    requested output path exactly when that already ends in ".mp4";
    otherwise everything from the last dot of the requested path on is
    replaced by ".mp4", and a path without any dot gets ".mp4" appended.
    Normalising twice changes nothing more. *)
Theorem output_file_mp4 p :
  dot_mp4 `suffix_of` output_file p
  ∧ (output_file p = p ↔ dot_mp4 `suffix_of` p)
  ∧ output_file (output_file p) = output_file p
  ∧ ("."%char ∉ p → output_file p = p ++ dot_mp4)
  ∧ (∀ stem ext,
       p = stem ++ "."%char :: ext → "."%char ∉ ext →
       ext ≠ list_ascii_of_string "mp4" →
       output_file p = stem ++ dot_mp4).
Proof.
  assert (∀ q, dot_mp4 `suffix_of` output_file q) as Hsuf.
  { intros q. unfold output_file. destruct (endswith q dot_mp4) eqn:E.
    - by apply endswith_true.
    - by apply suffix_app_r. }
  assert (∀ q, dot_mp4 `suffix_of` q → output_file q = q) as Hfix.
  { intros q Hq%endswith_true. unfold output_file. by rewrite Hq. }
  split; [apply Hsuf|]. split; [|split; [|split]].
  - split; [|apply Hfix]. intros Heq. rewrite <- Heq. apply Hsuf.
  - apply Hfix, Hsuf.
  - intros Hnd. unfold output_file, rsplit_head.
    rewrite (proj2 (rsplit_dot_None p) Hnd).
    destruct (endswith p dot_mp4) eqn:E; [|done].
    apply endswith_true in E as [k ->]. destruct Hnd.
    apply elem_of_app. right. apply list_elem_of_here.
  - intros stem ext -> Hnd Hext. unfold output_file, rsplit_head.
    rewrite (proj2 (rsplit_dot_Some _ stem ext)) by done.
    destruct (endswith _ dot_mp4) eqn:E; [|done].
    apply endswith_true in E as [k Hk].
    assert (rsplit_dot (k ++ dot_mp4) = Some (k, list_ascii_of_string "mp4"))
      as Hr.
    { apply rsplit_dot_Some. split; [done|].
      intros Hin. simpl in Hin.
      repeat (apply elem_of_cons in Hin as [Hin|Hin]; [done|]).
      by apply elem_of_nil in Hin. }
    rewrite <- Hk, (proj2 (rsplit_dot_Some _ stem ext)) in Hr by done.
    by injection Hr as _ ->.
Qed.

(** ** File names of uploads *)

Lemma lower_char_idem ch : lower_char (lower_char ch) = lower_char ch.
Proof. by destruct ch as [[] [] [] [] [] [] [] []]. Qed.

Lemma lower_char_dot ch : lower_char ch = "."%char ↔ ch = "."%char.
Proof.
  destruct ch as [[] [] [] [] [] [] [] []]; cbv;
    split; intros H; first [reflexivity|discriminate H].
Qed.

Lemma lower_idem s : lower (lower s) = lower s.
Proof.
  unfold lower. rewrite map_map. apply map_ext. intros ch.
  apply lower_char_idem.
Qed.

Lemma lower_no_dot s : "."%char ∉ s → "."%char ∉ lower s.
Proof.
  intros Hs (ch & Hch & Hin)%list_elem_of_fmap. apply Hs.
  symmetry in Hch. apply (proj1 (lower_char_dot ch)) in Hch. by subst.
Qed.

Lemma lower_nil s : lower s = [] ↔ s = [].
Proof. by destruct s. Qed.

Lemma get_extension_dot stem ext :
  "."%char ∉ ext → get_extension (stem ++ "."%char :: ext) = lower ext.
Proof.
  intros Hext. unfold get_extension.
  rewrite bool_decide_eq_true_2.
  - by rewrite rsplit_dot_complete.
  - apply elem_of_app. right. apply list_elem_of_here.
Qed.

Lemma get_extension_no_dot filename :
  "."%char ∉ filename → get_extension filename = [].
Proof. intros Hn. unfold get_extension. by rewrite bool_decide_eq_false_2. Qed.

(** A file name either has no dot or splits at its last dot. *)
Lemma filename_cases filename :
  "."%char ∉ filename
  ∨ ∃ stem ext, filename = stem ++ "."%char :: ext ∧ "."%char ∉ ext.
Proof.
  pose proof (rsplit_dot_sound filename) as Hs.
  destruct (rsplit_dot filename) as [[stem ext]|]; [right; eauto|by left].
Qed.

Lemma dot_split_unique stem1 ext1 stem2 ext2 :
  stem1 ++ "."%char :: ext1 = stem2 ++ "."%char :: ext2 →
  "."%char ∉ ext1 → "."%char ∉ ext2 → stem1 = stem2 ∧ ext1 = ext2.
Proof.
  intros Heq H1 H2.
  pose proof (rsplit_dot_complete stem1 ext1 H1) as Hr.
  rewrite Heq, (rsplit_dot_complete stem2 ext2 H2) in Hr.
  by injection Hr as -> ->.
Qed.

(** X15.  An upload with an ASCII file name passes [validate_file_type]
    exactly when the name has a dot, the part after its last dot is not
    empty and that part, lower-cased, is an allowed extension; when the
    empty string is not an allowed extension this is the verdict of
    [allowed_file] on the name. *)
Theorem upload_validation allowed_extensions filename :
  ascii_only filename →
  (validate_file_type allowed_extensions filename = true
   ↔ ∃ stem ext, filename = stem ++ "."%char :: ext ∧ ("."%char ∉ ext)
       ∧ ext ≠ [] ∧ lower ext ∈ allowed_extensions)
  ∧ ([] ∉ allowed_extensions →
     validate_file_type allowed_extensions filename
     = allowed_file allowed_extensions filename).
Proof.
  intros _. destruct (filename_cases filename) as [Hnd|(stem & ext & -> & Hext)].
  - assert (validate_file_type allowed_extensions filename = false) as Hv.
    { unfold validate_file_type. rewrite (get_extension_no_dot _ Hnd).
      by case_bool_decide. }
    rewrite Hv. split.
    + split; [done|]. intros (stem & ext & -> & _). destruct Hnd.
      apply elem_of_app. right. apply list_elem_of_here.
    + intros _. unfold allowed_file. by rewrite bool_decide_eq_false_2.
  - unfold validate_file_type, allowed_file.
    rewrite (get_extension_dot stem ext Hext), lower_idem.
    rewrite (rsplit_dot_complete stem ext Hext).
    rewrite (bool_decide_eq_false_2 (stem ++ "."%char :: ext = []))
      by (by destruct stem).
    rewrite (bool_decide_eq_true_2 ("."%char ∈ stem ++ "."%char :: ext))
      by (apply elem_of_app; right; apply list_elem_of_here).
    split.
    + split.
      * intros Hv. exists stem, ext. split; [done|]. split; [done|].
        case_bool_decide as He; [done|]. case_bool_decide as Ha; [|done].
        split; [|done]. intros ->. by apply He.
      * intros (stem' & ext' & Heq & Hext' & Hne & Hal).
        apply dot_split_unique in Heq as [-> ->]; [|done..].
        rewrite bool_decide_eq_false_2 by (by rewrite lower_nil).
        by rewrite bool_decide_eq_true_2.
    + intros Hnil. simpl. case_bool_decide as He.
      * rewrite He. by rewrite bool_decide_eq_false_2.
      * by case_bool_decide.
Qed.

(** X16.  For an ASCII file name and a [hex] without dot, the name made by
    [generate_unique_filename] is [hex], a dot and a non-empty extension
    without dot that [get_extension] gives back unchanged: the lower-cased
    extension of the file name when it has one, and otherwise "mp4" or
    "jpg".  A name with an extension keeps its file type; a name without
    one is never taken for a video by [process_file], also when the upload
    is stored as ".mp4". *)
Theorem unique_filename_extension hex filename :
  ascii_only filename → "."%char ∉ hex →
  let upload := generate_unique_filename hex filename in
  (∃ ext, upload = hex ++ "."%char :: ext ∧ ext ≠ [] ∧ ("."%char ∉ ext)
     ∧ get_extension upload = ext
     ∧ (get_extension filename ≠ [] → ext = get_extension filename)
     ∧ (get_extension filename = [] →
        ext = list_ascii_of_string "mp4" ∨ ext = list_ascii_of_string "jpg"))
  ∧ (get_extension filename ≠ [] → is_video upload = is_video filename)
  ∧ (get_extension filename = [] → is_video filename = false).
Proof.
  intros _ Hhex. cbv zeta.
  assert (∀ ext, "."%char ∉ ext → lower ext = ext →
            get_extension (hex ++ "."%char :: ext) = ext) as Hget.
  { intros ext Hext Hlow. by rewrite get_extension_dot. }
  assert ("."%char ∉ list_ascii_of_string "mp4") as Hmp4 by compute_done.
  assert ("."%char ∉ list_ascii_of_string "jpg") as Hjpg by compute_done.
  unfold generate_unique_filename.
  destruct (bool_decide (get_extension filename = [])) eqn:Ee; simpl negb.
  - apply bool_decide_eq_true in Ee. cbv iota.
    split; [|split; [done|]].
    + destruct (endswith_any _ _).
      * exists (list_ascii_of_string "mp4").
        split; [done|]. split; [done|]. split; [done|].
        split; [by apply (Hget (list_ascii_of_string "mp4"))|].
        split; [done|]. intros _. by left.
      * exists (list_ascii_of_string "jpg").
        split; [done|]. split; [done|]. split; [done|].
        split; [by apply (Hget (list_ascii_of_string "jpg"))|].
        split; [done|]. intros _. by right.
    + intros _. unfold is_video. by rewrite Ee.
  - apply bool_decide_eq_false in Ee. cbv iota.
    destruct (filename_cases filename) as [Hnd|(stem & ext & -> & Hext)].
    { by rewrite (get_extension_no_dot _ Hnd) in Ee. }
    rewrite (get_extension_dot stem ext Hext) in *.
    pose proof (lower_no_dot ext Hext) as Hld.
    pose proof (Hget (lower ext) Hld (lower_idem ext)) as Hg.
    split; [|split; [|done]].
    + exists (lower ext).
      split; [done|]. split; [done|]. split; [done|]. split; [done|].
      split; [done|]. intros Hnil. by destruct Ee.
    + intros _. unfold is_video. by rewrite Hg, get_extension_dot.
Qed.

End Engine.

(** ** Concrete runs

    The runs below use the default parameters of [process_video]:
    confidence 0.6, motorcycle confidence 0.75, IoU threshold 0.3. *)

Module Examples.

Definition a_car : raw_detection :=
  {| xyxy := pixel_box (10, 10, 50, 50); cls := 2; conf := 9 # 10 |}.

(** A second car, overlapping the first with IoU 400/2800 < 0.3. *)
Definition another_car : raw_detection :=
  {| xyxy := pixel_box (40, 40, 80, 80); cls := 2; conf := 8 # 10 |}.

(** A motorcycle reported with the corners (0.9, 0.9) and (100.1, 154.5):
    its area as reported is 15237.12, the area of the truncated box
    (0, 0, 100, 154) is 15400. *)
Definition wide_motorcycle : raw_detection :=
  {| xyxy := (9 # 10, 9 # 10, 1001 # 10, 1545 # 10)%Q;
     cls := 3; conf := 9 # 10 |}.

(** A motorcycle reported with the corners (100.6, 200.2) and
    (130.9, 260.7). *)
Definition small_motorcycle : raw_detection :=
  {| xyxy := (1006 # 10, 2002 # 10, 1309 # 10, 2607 # 10)%Q;
     cls := 3; conf := 9 # 10 |}.

(** Two squares side by side, sharing an edge. *)
Definition left_square : box := (0, 0, 2, 2).
Definition right_square : box := (2, 0, 4, 2).

Definition video_of (fps : Z) (fs : list (list raw_detection)) : video :=
  {| cap_opened := true; fps := fps; width := 640; height := 480;
     frames := fs |}.

Abbreviation run_default v :=
  (process_video (6 # 10) (75 # 100) (3 # 10) v true).

Abbreviation state_default v fs := (run (6 # 10) (75 # 100) (3 # 10) v fs).

(** What a result says, for comparison by computation. *)
Definition report (r : error + results)
  : option (Z * list Z * Q * list Q * Q * bool) :=
  match r with
  | inl _ => None
  | inr r =>
      Some (total_vehicles r, map (vehicle_counts r) vehicle_types,
            density r, r_density_series r, avg_confidence r, low_confidence r)
  end.

(** One car seen one frame, then thirty frames without detection. *)
Definition lonely_frames : list (list raw_detection) :=
  [a_car] :: replicate 30 [].

Definition lonely_track : track :=
  {| id := 1; bbox := (10, 10, 50, 50); last_seen := 0; hits := 1;
     counted := false |}.

(** A car whose box overlaps that of [a_car] with IoU 1200/2000 = 0.6. *)
Definition near_car : raw_detection :=
  {| xyxy := pixel_box (20, 10, 60, 50); cls := 2; conf := 8 # 10 |}.

(** Both cars in frame 0, then thirty frames showing only [near_car]: the
    track of [a_car], first in the store, takes every detection, and the
    track of [near_car] is never hit again. *)
Definition crowded_frames : list (list raw_detection) :=
  [a_car; near_car] :: replicate 30 [near_car].

Definition starved_track : track :=
  {| id := 2; bbox := (20, 10, 60, 50); last_seen := 0; hits := 1;
     counted := false |}.

End Examples.

Import Examples.

(** Scenario A of the specification: one car, five frames. *)
Example scenario_one_car :
  report (run_default (video_of 30 (replicate 5 [a_car])))
  = Some (1, [1; 0; 0; 0], 100 # 45, [100 # 45], 450000 # 500000, false).
Proof. vm_compute. reflexivity. Qed.

(** Scenario C: two cars that overlap with IoU below the threshold are
    tracked and counted separately. *)
Example scenario_two_cars :
  (_compute_iou (int_box (xyxy a_car)) (int_box (xyxy another_car))
   < 3 # 10)%Q
  ∧ (λ x, x.1.1.1.1)
      <$> report (run_default (video_of 30 (replicate 3 [a_car; another_car])))
    = Some (2, [2; 0; 0; 0]).
Proof. split; [reflexivity|]. vm_compute. reflexivity. Qed.

(** Two hits do not confirm a track, three do, a fourth adds nothing. *)
Example scenario_confirmation :
  map (λ n, unique_counts (state_default (video_of 30 []) (replicate n [a_car])) car)
      [1; 2; 3; 4]%nat
  = [0; 0; 1; 1].
Proof. vm_compute. reflexivity. Qed.

(** The same box thirty-one frames later starts a new track, with the next
    id. *)
Example scenario_reappearance :
  tracks (state_default (video_of 30 []) lonely_frames) car = [lonely_track]
  ∧ tracks (state_default (video_of 30 []) (lonely_frames ++ [[a_car]])) car
    = [{| id := 2; bbox := (10, 10, 50, 50); last_seen := 31; hits := 1;
          counted := false |}].
Proof. split; vm_compute; reflexivity. Qed.

(** ** Instances of the theorems *)

(** [iou_properties] at two concrete boxes. *)
Lemma iou_properties_witness :
  non_degenerate left_square ∧ disjoint_boxes left_square right_square
  ∧ (_compute_iou left_square left_square == 1)%Q
  ∧ (_compute_iou left_square right_square == 0)%Q.
Proof.
  assert (non_degenerate left_square) as Hn by (simpl; lia).
  assert (disjoint_boxes left_square right_square) as Hd by (simpl; lia).
  destruct iou_properties as (_ & Hself & Hdis & _).
  split; [exact Hn|]. split; [exact Hd|].
  split; [exact (Hself _ Hn)|exact (Hdis _ _ Hd)].
Defined.

(** The claim of C6 read on the box the detector reports fails: in a
    640 x 480 frame (5% of the area is 15360) the motorcycle detection
    [wide_motorcycle], of confidence 0.9, has a box with [x1 < x2] and
    [y1 < y2], a mapped class, a confidence above the motorcycle threshold
    and a reported area, 15237.12, within the limit, and yet it is dropped:
    the area the code compares is the area 15400 of the box with the
    corners truncated to integers. *)
Lemma truncated_area_counterexample :
  proper_box (xyxy wide_motorcycle)
  ∧ class_map (cls wide_motorcycle) = Some motorcycle
  ∧ (conf_threshold (6 # 10) (75 # 100) motorcycle <= conf wide_motorcycle)%Q
  ∧ (reported_area (xyxy wide_motorcycle)
     <= (5 # 100) * inject_Z (640 * 480))%Q
  ∧ int_box (xyxy wide_motorcycle) = (0, 0, 100, 154)
  ∧ accept (6 # 10) (75 # 100) (640 * 480) wide_motorcycle = None
  ∧ detections_by_class (6 # 10) (75 # 100) (640 * 480) [wide_motorcycle]
      motorcycle
    = [].
Proof.
  split; [by split|]. split; [reflexivity|]. split; [by vm_compute|].
  split; [by vm_compute|]. split; [reflexivity|]. split; reflexivity.
Qed.

(** [detection_filter] on a motorcycle that is accepted in a 640 x 480
    frame: the bucket entry carries the truncated box. *)
Lemma detection_filter_witness :
  accept (6 # 10) (75 # 100) (640 * 480) small_motorcycle
  = Some (motorcycle, ((100, 200, 130, 260), conf small_motorcycle)).
Proof.
  destruct (detection_filter (6 # 10) (75 # 100)) as (_ & _ & _ & Hacc & _).
  apply Hacc. split; [reflexivity|]. split; [by vm_compute|].
  split; [intros _; by vm_compute|reflexivity].
Defined.

(** [empty_run_raises] on a video that opens and delivers no frame. *)
Lemma empty_run_raises_witness :
  frames (video_of 30 []) = []
  ∧ run_default (video_of 30 [])
    = inl (ValueError "No frames were processed from the video").
Proof.
  split; [reflexivity|].
  by apply (empty_run_raises (6 # 10) (75 # 100) (3 # 10) (video_of 30 []) true).
Defined.

(** [result_density_and_total] on five frames showing the same car. *)
Lemma result_density_and_total_witness :
  ∃ r, run_default (video_of 30 (replicate 5 [a_car])) = inr r
    ∧ (density r == 100 # 45)%Q ∧ total_vehicles r = 1.
Proof.
  destruct (result_density_and_total (6 # 10) (75 # 100) (3 # 10)
              (video_of 30 (replicate 5 [a_car])) eq_refl ltac:(discriminate))
    as (r & Hr & (Hd & _) & _ & Ht & Hc).
  exists r. split; [exact Hr|]. split.
  - rewrite Hd. by vm_compute.
  - rewrite Ht, !Hc. by vm_compute.
Defined.

(** [density_timeline] on five frames at 10 frames per second: the sampling
    period is 2 and the timeline has ceil(5/2) = 3 entries. *)
Lemma density_timeline_witness :
  ∃ r, run_default (video_of 10 (replicate 5 [a_car])) = inr r
    ∧ sample_every_of 10 = 2
    ∧ Z.of_nat (length (r_density_series r)) = 3.
Proof.
  destruct (density_timeline (6 # 10) (75 # 100) (3 # 10)
              (video_of 10 (replicate 5 [a_car])) eq_refl ltac:(discriminate))
    as (r & Hr & _ & HL & _).
  exists r. split; [exact Hr|]. split; [reflexivity|]. rewrite HL. reflexivity.
Defined.

(** [result_confidence] on five frames showing the same car. *)
Lemma result_confidence_witness :
  ∃ r, run_default (video_of 30 (replicate 5 [a_car])) = inr r
    ∧ (avg_confidence r == 9 # 10)%Q.
Proof.
  destruct (result_confidence (6 # 10) (75 # 100) (3 # 10)
              (video_of 30 (replicate 5 [a_car])) eq_refl ltac:(discriminate))
    as (r & Hr & Havg & _).
  exists r. split; [exact Hr|]. rewrite Havg; [by vm_compute|discriminate].
Defined.

(** The claim of C7 read without proviso fails: in frame 31 of the run
    below the track [starved_track] is stale and a detection with exactly
    its box appears, yet no new track is created; the detection is assigned
    to the surviving track 1, whose box it overlaps, and the next id stays
    3. *)
Lemma reappearing_box_counterexample :
  starved_track ∈ tracks (state_default (video_of 30 []) crowded_frames) car
  ∧ TRACK_TIMEOUT
    < frame_idx (state_default (video_of 30 []) crowded_frames)
      - last_seen starved_track
  ∧ detections_by_class (6 # 10) (75 # 100) (640 * 480) [near_car] car
    = [(bbox starved_track, 8 # 10)]
  ∧ tracks (state_default (video_of 30 []) (crowded_frames ++ [[near_car]])) car
    = [{| id := 1; bbox := (20, 10, 60, 50); last_seen := 31; hits := 32;
          counted := true |}]
  ∧ next_track_id
      (state_default (video_of 30 []) (crowded_frames ++ [[near_car]])) car
    = 3.
Proof.
  split; [vm_compute; apply list_elem_of_further, list_elem_of_here|].
  split; [by vm_compute|]. split; [reflexivity|].
  split; vm_compute; reflexivity.
Qed.

(** [stale_track_expires] on a car seen in frame 0 and again in frame 31:
    the track of frame 0 is stale in frame 31, and the reappearing box gets
    the new identity 2. *)
Lemma stale_track_expires_witness :
  lonely_track ∈ tracks (state_default (video_of 30 []) lonely_frames) car
  ∧ TRACK_TIMEOUT
    < frame_idx (state_default (video_of 30 []) lonely_frames)
      - last_seen lonely_track
  ∧ tracks (state_default (video_of 30 []) (lonely_frames ++ [[a_car]])) car
    = [{| id := 2; bbox := (10, 10, 50, 50); last_seen := 31; hits := 1;
          counted := false |}].
Proof.
  assert (lonely_track
          ∈ tracks (state_default (video_of 30 []) lonely_frames) car) as Hin.
  { vm_compute. apply list_elem_of_here. }
  assert (TRACK_TIMEOUT
          < frame_idx (state_default (video_of 30 []) lonely_frames)
            - last_seen lonely_track) as Hstale by (by vm_compute).
  destruct (stale_track_expires (6 # 10) (75 # 100) (3 # 10) (video_of 30 [])
              lonely_frames [a_car] car lonely_track Hin Hstale)
    as (_ & _ & _ & _ & _ & _ & Hnew).
  split; [exact Hin|]. split; [exact Hstale|].
  rewrite Hnew; [|by vm_compute]. by vm_compute.
Defined.

(** ** Instances of the further theorems *)

Module MoreExamples.

(** The default of [app.config['ALLOWED_EXTENSIONS']]. *)
Definition default_extensions : list (list ascii) :=
  map list_ascii_of_string
    ["jpg"%string; "jpeg"%string; "png"%string; "mp4"%string; "avi"%string;
     "mov"%string].

Definition clip_name : list ascii := list_ascii_of_string "clip.MP4".

Definition some_hex : list ascii := list_ascii_of_string "0f3a".

End MoreExamples.

Import MoreExamples.

(** [short_run_counts_nothing] on two frames showing the same car. *)
Lemma short_run_counts_nothing_witness :
  ∃ r, run_default (video_of 30 (replicate 2 [a_car])) = inr r
    ∧ total_vehicles r = 0.
Proof.
  destruct (short_run_counts_nothing (6 # 10) (75 # 100) (3 # 10)
              (video_of 30 (replicate 2 [a_car])) eq_refl ltac:(discriminate)
              ltac:(simpl; lia))
    as (r & Hr & Ht & _).
  exists r. by split.
Defined.

(** [avg_confidence_bounds] with the default thresholds on five frames
    showing the same car. *)
Lemma avg_confidence_bounds_witness :
  ∃ r, run_default (video_of 30 (replicate 5 [a_car])) = inr r
    ∧ (Qmin (6 # 10) (75 # 100) <= avg_confidence r)%Q
    ∧ (avg_confidence r <= 9 # 10)%Q.
Proof.
  destruct (avg_confidence_bounds (6 # 10) (75 # 100) (3 # 10)
              (video_of 30 (replicate 5 [a_car])) eq_refl ltac:(discriminate))
    as (r & Hr & _ & Hlo & Hhi & _).
  exists r. split; [exact Hr|]. split.
  - apply Hlo. by vm_compute.
  - apply Hhi; [by vm_compute|]. vm_compute. repeat constructor; discriminate.
Defined.

(** [density_dominates_timeline] on five frames at 10 frames per second. *)
Lemma density_dominates_timeline_witness :
  ∃ r, run_default (video_of 10 (replicate 5 [a_car])) = inr r
    ∧ (density r <= 100)%Q
    ∧ Forall (λ e, (e <= density r)%Q) (r_density_series r).
Proof.
  destruct (density_dominates_timeline (6 # 10) (75 # 100) (3 # 10)
              (video_of 10 (replicate 5 [a_car])) eq_refl ltac:(discriminate))
    as (r & Hr & _ & Hle & Hall & _).
  exists r. by repeat split.
Defined.

(** [lane_bands] on a frame 480 pixels high. *)
Lemma lane_bands_witness :
  0 <= 480 ∧ lane_heights 480 = (158, 316)
  ∧ lane_of (lane_heights 480) (int_box (xyxy a_car)) = Left_Lane.
Proof.
  assert (0 <= 480) as Hh by lia.
  destruct (lane_bands 480 (int_box (xyxy a_car)) Hh) as (Hlh & _ & _ & _ & Hleft & _).
  split; [exact Hh|]. split; [by rewrite Hlh|].
  apply Hleft. rewrite Hlh. by vm_compute.
Defined.

(** [lane_bar] on a lane with six tracks. *)
Lemma lane_bar_witness :
  0 <= 6 ∧ filled_width (lane_density 6) = 80.
Proof.
  assert (0 <= 6) as H6 by lia.
  destruct (lane_bar 6 H6) as (_ & _ & _ & Hfw & _).
  split; [exact H6|]. by rewrite Hfw.
Defined.

(** [upload_validation] on an upper-case video extension. *)
Lemma upload_validation_witness :
  ascii_only clip_name
  ∧ validate_file_type default_extensions clip_name = true
  ∧ allowed_file default_extensions clip_name = true.
Proof.
  assert (ascii_only clip_name) as Ha by compute_done.
  destruct (upload_validation default_extensions clip_name Ha) as [Hv Hal].
  split; [exact Ha|].
  assert (validate_file_type default_extensions clip_name = true) as Hval.
  { apply Hv. exists (list_ascii_of_string "clip"), (list_ascii_of_string "MP4").
    split; [done|]. split; [compute_done|]. split; [done|compute_done]. }
  split; [exact Hval|]. rewrite <- Hal; [exact Hval|compute_done].
Defined.

(** [unique_filename_extension] on the same name. *)
Lemma unique_filename_extension_witness :
  ascii_only clip_name ∧ ("."%char ∉ some_hex)
  ∧ generate_unique_filename some_hex clip_name
    = list_ascii_of_string "0f3a.mp4"
  ∧ is_video (generate_unique_filename some_hex clip_name) = true.
Proof.
  assert (ascii_only clip_name) as Ha by compute_done.
  assert ("."%char ∉ some_hex) as Hh by compute_done.
  destruct (unique_filename_extension some_hex clip_name Ha Hh)
    as (_ & Hvid & _).
  split; [exact Ha|]. split; [exact Hh|]. split; [by vm_compute|].
  rewrite Hvid; [by vm_compute|by vm_compute].
Defined.
